(** * MurmurHash3 (murmur-hash, TypeScript): a shallow embedding and its properties

    The three engines of the package ([hash32.ts], [hash128.ts],
    [hash128x64.ts]), their streaming wrappers and the helpers of
    [encoding.ts] are transcribed below, statement by statement, over a
    model of the JavaScript values the code manipulates. *)

From Stdlib Require Import ZArith List String Ascii Bool Lia.
From Stdlib.Strings Require Import Byte.
Import ListNotations.

Local Open Scope Z_scope.

(** ** JavaScript numbers, restricted to the integers

    A JavaScript [number] is an IEEE-754 double.  Every number that occurs
    in the hash engines is integer valued (bytes, lengths, constants, an
    integer seed), so a number is modelled by the integer it denotes.
    The arithmetic operators [+], [-] and [*] round their exact result to
    the nearest double (ties to even); the bitwise operators first convert
    their operands with ToInt32 / ToUint32, which on an integer is
    reduction modulo [2^32]. *)
Module JS.

(** The double nearest to the integer [z] (round to nearest, ties to
    even).  Integers below [2^53] in magnitude are doubles themselves.
    Overflow to infinity does not arise: the only sums of the program
    with an unbounded operand add a 32-bit quantity to the seed. *)
Definition round53 (z : Z) : Z :=
  let m := Z.abs z in
  if m <=? 2 ^ 53 then z
  else
    let e := Z.log2 m - 52 in
    let q := m / 2 ^ e in
    let r := m mod 2 ^ e in
    let half := 2 ^ (e - 1) in
    let q' := if (half <? r) || ((r =? half) && Z.odd q) then q + 1 else q in
    Z.sgn z * (q' * 2 ^ e).

(** The integers that are numbers. *)
Definition is_number (z : Z) : Prop := round53 z = z.

Definition add (a b : Z) : Z := round53 (a + b).
Definition sub (a b : Z) : Z := round53 (a - b).
Definition mul (a b : Z) : Z := round53 (a * b).

(** [a % b] for a positive [b]: the remainder has the sign of [a]. *)
Definition rem (a b : Z) : Z := Z.rem a b.

Definition toUint32 (z : Z) : Z := z mod 2 ^ 32.
Definition toInt32 (z : Z) : Z := (z + 2 ^ 31) mod 2 ^ 32 - 2 ^ 31.

(** [a & b], [a | b], [a ^ b]: on ToInt32 of the operands; [Z.land] and
    friends work on the two's complement representation, so the result
    is the signed 32-bit result JavaScript returns. *)
Definition and (a b : Z) : Z := Z.land (toInt32 a) (toInt32 b).
Definition or (a b : Z) : Z := Z.lor (toInt32 a) (toInt32 b).
Definition xor (a b : Z) : Z := Z.lxor (toInt32 a) (toInt32 b).

(** [a << n] and [a >>> n]: the shift count is taken modulo 32. *)
Definition shl (a n : Z) : Z := toInt32 (Z.shiftl (toInt32 a) (toUint32 n mod 32)).
Definition shr (a n : Z) : Z := Z.shiftr (toUint32 a) (toUint32 n mod 32).

End JS.

(** ** Byte arrays

    A [Uint8Array] is a list of bytes.  Reading past the end gives
    [undefined], which every bitwise operator of the program converts
    to [0].  Lengths, offsets and loop counters stay below [2^53], where
    [+] and [*] are exact, and are written with the operations of [Z]. *)
Definition Uint8Array := list byte.

Definition byteZ (b : byte) : Z := Z.of_N (Byte.to_N b).

Definition get (bytes : Uint8Array) (i : Z) : Z :=
  if i <? 0 then 0
  else match nth_error bytes (Z.to_nat i) with
       | Some b => byteZ b
       | None => 0
       end.

Definition length_of (bytes : Uint8Array) : Z := Z.of_nat (List.length bytes).

(** ** The 32-bit helpers

    [hash32.ts] and [hash128.ts] each carry the same three private
    functions [multiply], [rotl] and [fmix]. *)
Module Prim32.

(** [((a & 0xffff) * b + ((((a >>> 16) * b) & 0xffff) << 16)) | 0] *)
Definition multiply (a b : Z) : Z :=
  JS.or
    (JS.add (JS.mul (JS.and a 0xffff) b)
            (JS.shl (JS.and (JS.mul (JS.shr a 16) b) 0xffff) 16))
    0.

(** [(value << shift) | (value >>> (32 - shift))] *)
Definition rotl (value shift : Z) : Z :=
  JS.or (JS.shl value shift) (JS.shr value (JS.sub 32 shift)).

Definition fmix (h : Z) : Z :=
  let h := JS.xor h (JS.shr h 16) in
  let h := multiply h 0x85ebca6b in
  let h := JS.xor h (JS.shr h 13) in
  let h := multiply h 0xc2b2ae35 in
  let h := JS.xor h (JS.shr h 16) in
  h.

End Prim32.

(** A [case k:] label of a [switch (r)] whose cases descend without
    [break]: the statements under the label run when [r] is at least [k]. *)
Definition from_case {A : Type} (r k : Z) (f : A -> A) (s : A) : A :=
  if k <=? r then f s else s.

(** ** Strings and thrown errors

    A JavaScript string is represented by a [string]; the hex digests only
    hold ASCII characters.  [Number.prototype.toString(16)] on a
    non-negative integer writes its hexadecimal digits, most significant
    first, in lower case and without leading zeros. *)
Inductive JsError : Type := SyntaxError | RangeError.

Inductive completion (A : Type) : Type :=
| Normal (a : A)
| Throw (e : JsError).
Arguments Normal {A} a.
Arguments Throw {A} e.

Definition hex_digit (d : Z) : ascii :=
  match d with
  | 0 => "0" | 1 => "1" | 2 => "2" | 3 => "3" | 4 => "4" | 5 => "5"
  | 6 => "6" | 7 => "7" | 8 => "8" | 9 => "9" | 10 => "a" | 11 => "b"
  | 12 => "c" | 13 => "d" | 14 => "e" | _ => "f"
  end%char.

Fixpoint toString16_digits (fuel : nat) (n : Z) (acc : string) : string :=
  match fuel with
  | O => acc
  | S fuel' =>
      let acc' := String (hex_digit (n mod 16)) acc in
      if n / 16 =? 0 then acc' else toString16_digits fuel' (n / 16) acc'
  end.

Definition toString16 (n : Z) : string :=
  toString16_digits (S (Z.to_nat (Z.log2 n))) n EmptyString.

(** [s.slice(-8)]: the last eight characters, or all of [s] when it is
    shorter. *)
Definition slice_last8 (s : string) : string :=
  substring (String.length s - 8) 8 s.

(** [('00000000' + (h >>> 0).toString(16)).slice(-8)] *)
Definition hex8 (h : Z) : string :=
  slice_last8 ("00000000" ++ toString16 (JS.shr h 0)).

(** The value of a hexadecimal digit, in either case. *)
Definition hex_value (c : ascii) : option Z :=
  let n := Z.of_nat (nat_of_ascii c) in
  if (48 <=? n) && (n <=? 57) then Some (n - 48)
  else if (97 <=? n) && (n <=? 102) then Some (n - 87)
  else if (65 <=? n) && (n <=? 70) then Some (n - 55)
  else None.

Fixpoint parse_hex (s : string) (acc : Z) : option Z :=
  match s with
  | EmptyString => Some acc
  | String c s' =>
      match hex_value c with
      | Some d => parse_hex s' (acc * 16 + d)
      | None => None
      end
  end.

(** ** encoding.ts *)

(** [HashInput = string | Uint8Array].  A string input is carried as the
    bytes of its UTF-8 encoding, which is what [TextEncoder.encode]
    returns for it. *)
Inductive HashInput : Type :=
| InString (utf8 : string)
| InBytes (bytes : Uint8Array).

Definition toBytes (input : HashInput) : Uint8Array :=
  match input with
  | InBytes bytes => bytes
  | InString utf8 => list_byte_of_string utf8
  end.

(** [BigInt('0x' + hex)] on a string [hex] without white space: the
    digits after the prefix are read in base 16; no digit, or a character
    that is not a hexadecimal digit, is a [SyntaxError]. *)
Definition hexToBigInt (hex : string) : completion Z :=
  match hex with
  | EmptyString => Throw SyntaxError
  | _ => match parse_hex hex 0 with
         | Some v => Normal v
         | None => Throw SyntaxError
         end
  end.

(** ** types.ts *)
Inductive HashOutput : Type := hex | bigint.

Record Hash128Options : Type := {
  seed : option Z;
  output : option HashOutput
}.

(** [string | bigint] *)
Inductive Digest128 : Type :=
| HexString (s : string)
| BigIntValue (v : Z).

(** [options?.seed ?? 0] and [options?.output] *)
Definition seed_of (options : option Hash128Options) : Z :=
  match options with
  | Some o => match seed o with Some s => s | None => 0 end
  | None => 0
  end.

Definition output_of (options : option Hash128Options) : option HashOutput :=
  match options with
  | Some o => output o
  | None => None
  end.

(** ** The buffer of the streaming hashers

    The three stream classes assemble their chunks with the same loop:
    [new Uint8Array(totalLength)], then [result.set(chunk, offset)] for
    each chunk in turn.  [new Uint8Array(n)] is [n] zero bytes, and
    [set] throws a [RangeError] when the chunk does not fit. *)
Definition new_Uint8Array (n : Z) : completion Uint8Array :=
  if n <? 0 then Throw RangeError
  else Normal (repeat x00 (Z.to_nat n)).

Definition typed_set (result chunk : Uint8Array) (offset : Z)
  : completion Uint8Array :=
  if (offset <? 0) || (length_of result <? offset + length_of chunk)
  then Throw RangeError
  else Normal (firstn (Z.to_nat offset) result ++ chunk
               ++ skipn (Z.to_nat offset + List.length chunk) result).

Fixpoint copy_chunks (chunks : list Uint8Array) (result : Uint8Array)
  (offset : Z) : completion Uint8Array :=
  match chunks with
  | [] => Normal result
  | chunk :: rest =>
      match typed_set result chunk offset with
      | Normal result' => copy_chunks rest result' (offset + length_of chunk)
      | Throw e => Throw e
      end
  end.

Definition assemble (chunks : list Uint8Array) (totalLength : Z)
  : completion Uint8Array :=
  match new_Uint8Array totalLength with
  | Normal result => copy_chunks chunks result 0
  | Throw e => Throw e
  end.

(** ** hash32.ts *)
Module Hash32.
Import Prim32.

Definition C1 : Z := 0xcc9e2d51.
Definition C2 : Z := 0x1b873593.

(** The body of the block loop, at iteration [i]. *)
Definition block (bytes : Uint8Array) (h1 : Z) (i : nat) : Z :=
  let offset := Z.of_nat i * 4 in
  let k1 :=
    JS.or (JS.or (JS.or (get bytes offset)
                        (JS.shl (get bytes (offset + 1)) 8))
                 (JS.shl (get bytes (offset + 2)) 16))
          (JS.shl (get bytes (offset + 3)) 24) in
  let k1 := multiply k1 C1 in
  let k1 := rotl k1 15 in
  let k1 := multiply k1 C2 in
  let h1 := JS.xor h1 k1 in
  let h1 := rotl h1 13 in
  let h1 := JS.add (multiply h1 5) 0xe6546b64 in
  h1.

(** The [switch (len & 3)] on the remaining bytes; the state is
    [(k1, h1)]. *)
Definition tail (bytes : Uint8Array) (tailOffset r : Z) (h1 : Z) : Z :=
  let st := (0, h1) in
  let st := from_case r 3 (fun '(k1, h1) =>
              (JS.xor k1 (JS.shl (get bytes (tailOffset + 2)) 16), h1)) st in
  let st := from_case r 2 (fun '(k1, h1) =>
              (JS.xor k1 (JS.shl (get bytes (tailOffset + 1)) 8), h1)) st in
  let st := from_case r 1 (fun '(k1, h1) =>
              let k1 := JS.xor k1 (get bytes tailOffset) in
              let k1 := multiply k1 C1 in
              let k1 := rotl k1 15 in
              let k1 := multiply k1 C2 in
              (k1, JS.xor h1 k1)) st in
  snd st.

Definition compute (bytes : Uint8Array) (seed : Z) : Z :=
  let len := length_of bytes in
  let blocks := JS.shr len 2 in
  let h1 := seed in
  let h1 := fold_left (block bytes) (seq 0 (Z.to_nat blocks)) h1 in
  let tailOffset := blocks * 4 in
  let h1 := tail bytes tailOffset (JS.and len 3) h1 in
  let h1 := JS.xor h1 len in
  let h1 := fmix h1 in
  JS.shr h1 0.

(** [hash32(input, seed = 0)] *)
Definition hash32 (input : HashInput) (seed : option Z) : Z :=
  compute (toBytes input) (match seed with Some s => s | None => 0 end).

Record Hash32Stream : Type := mkStream {
  chunks : list Uint8Array;
  totalLength : Z;
  seed : Z
}.

Definition createHash32 (seed : option Z) : Hash32Stream :=
  mkStream [] 0 (match seed with Some s => s | None => 0 end).

(** [update] pushes the bytes, adds their length and returns [this]. *)
Definition update (input : HashInput) (this : Hash32Stream) : Hash32Stream :=
  let bytes := toBytes input in
  mkStream (chunks this ++ [bytes])
           (totalLength this + length_of bytes)
           (seed this).

(** [digest] returns its result together with the stream it leaves. *)
Definition digest (this : Hash32Stream) : completion Z * Hash32Stream :=
  (match assemble (chunks this) (totalLength this) with
   | Normal result => Normal (compute result (seed this))
   | Throw e => Throw e
   end, this).

End Hash32.

(** ** hash128.ts *)
Module Hash128.
Import Prim32.

Definition C1 : Z := 0x239b961b.
Definition C2 : Z := 0xab0e9789.
Definition C3 : Z := 0x38b34ae5.
Definition C4 : Z := 0xa1e38b93.

(** [bytes[o] | (bytes[o + 1] << 8) | (bytes[o + 2] << 16) | (bytes[o + 3] << 24)] *)
Definition word (bytes : Uint8Array) (o : Z) : Z :=
  JS.or (JS.or (JS.or (get bytes o)
                      (JS.shl (get bytes (o + 1)) 8))
               (JS.shl (get bytes (o + 2)) 16))
        (JS.shl (get bytes (o + 3)) 24).

Definition Lanes : Type := (Z * Z * Z * Z)%type.

(** The statements of the block loop after the four words are read. *)
Definition mix (h : Lanes) (k : Lanes) : Lanes :=
  let '(h1, h2, h3, h4) := h in
  let '(k1, k2, k3, k4) := k in
  let k1 := multiply k1 C1 in
  let k1 := rotl k1 15 in
  let k1 := multiply k1 C2 in
  let h1 := JS.xor h1 k1 in

  let h1 := rotl h1 19 in
  let h1 := JS.add h1 h2 in
  let h1 := JS.add (multiply h1 5) 0x561ccd1b in

  let k2 := multiply k2 C2 in
  let k2 := rotl k2 16 in
  let k2 := multiply k2 C3 in
  let h2 := JS.xor h2 k2 in

  let h2 := rotl h2 17 in
  let h2 := JS.add h2 h3 in
  let h2 := JS.add (multiply h2 5) 0x0bcaa747 in

  let k3 := multiply k3 C3 in
  let k3 := rotl k3 17 in
  let k3 := multiply k3 C4 in
  let h3 := JS.xor h3 k3 in

  let h3 := rotl h3 15 in
  let h3 := JS.add h3 h4 in
  let h3 := JS.add (multiply h3 5) 0x96cd1c35 in

  let k4 := multiply k4 C4 in
  let k4 := rotl k4 18 in
  let k4 := multiply k4 C1 in
  let h4 := JS.xor h4 k4 in

  let h4 := rotl h4 13 in
  let h4 := JS.add h4 h1 in
  let h4 := JS.add (multiply h4 5) 0x32ac3b17 in
  (h1, h2, h3, h4).

(** The body of the block loop, at iteration [i]. *)
Definition block (bytes : Uint8Array) (h : Lanes) (i : nat) : Lanes :=
  let offset := Z.of_nat i * 16 in
  let k1 := word bytes offset in
  let k2 := word bytes (offset + 4) in
  let k3 := word bytes (offset + 8) in
  let k4 := word bytes (offset + 12) in
  mix h (k1, k2, k3, k4).

(** The variables live in the [switch (len & 15)]. *)
Record Regs : Type := mkRegs {
  k1 : Z; k2 : Z; k3 : Z; k4 : Z;
  h1 : Z; h2 : Z; h3 : Z; h4 : Z
}.

Definition k1_xor (v : Z) (s : Regs) : Regs :=
  mkRegs (JS.xor (k1 s) v) (k2 s) (k3 s) (k4 s) (h1 s) (h2 s) (h3 s) (h4 s).
Definition k2_xor (v : Z) (s : Regs) : Regs :=
  mkRegs (k1 s) (JS.xor (k2 s) v) (k3 s) (k4 s) (h1 s) (h2 s) (h3 s) (h4 s).
Definition k3_xor (v : Z) (s : Regs) : Regs :=
  mkRegs (k1 s) (k2 s) (JS.xor (k3 s) v) (k4 s) (h1 s) (h2 s) (h3 s) (h4 s).
Definition k4_xor (v : Z) (s : Regs) : Regs :=
  mkRegs (k1 s) (k2 s) (k3 s) (JS.xor (k4 s) v) (h1 s) (h2 s) (h3 s) (h4 s).

Definition mix_k1 (s : Regs) : Regs :=
  let k := multiply (k1 s) C1 in
  let k := rotl k 15 in
  let k := multiply k C2 in
  mkRegs k (k2 s) (k3 s) (k4 s) (JS.xor (h1 s) k) (h2 s) (h3 s) (h4 s).
Definition mix_k2 (s : Regs) : Regs :=
  let k := multiply (k2 s) C2 in
  let k := rotl k 16 in
  let k := multiply k C3 in
  mkRegs (k1 s) k (k3 s) (k4 s) (h1 s) (JS.xor (h2 s) k) (h3 s) (h4 s).
Definition mix_k3 (s : Regs) : Regs :=
  let k := multiply (k3 s) C3 in
  let k := rotl k 17 in
  let k := multiply k C4 in
  mkRegs (k1 s) (k2 s) k (k4 s) (h1 s) (h2 s) (JS.xor (h3 s) k) (h4 s).
Definition mix_k4 (s : Regs) : Regs :=
  let k := multiply (k4 s) C4 in
  let k := rotl k 18 in
  let k := multiply k C1 in
  mkRegs (k1 s) (k2 s) (k3 s) k (h1 s) (h2 s) (h3 s) (JS.xor (h4 s) k).

Definition tail (bytes : Uint8Array) (tailOffset r : Z) (h : Lanes) : Lanes :=
  let '(a1, a2, a3, a4) := h in
  let b := fun j => get bytes (tailOffset + j) in
  let s := mkRegs 0 0 0 0 a1 a2 a3 a4 in
  let s := from_case r 15 (k4_xor (JS.shl (b 14) 16)) s in
  let s := from_case r 14 (k4_xor (JS.shl (b 13) 8)) s in
  let s := from_case r 13 (fun s => mix_k4 (k4_xor (b 12) s)) s in
  let s := from_case r 12 (k3_xor (JS.shl (b 11) 24)) s in
  let s := from_case r 11 (k3_xor (JS.shl (b 10) 16)) s in
  let s := from_case r 10 (k3_xor (JS.shl (b 9) 8)) s in
  let s := from_case r 9 (fun s => mix_k3 (k3_xor (b 8) s)) s in
  let s := from_case r 8 (k2_xor (JS.shl (b 7) 24)) s in
  let s := from_case r 7 (k2_xor (JS.shl (b 6) 16)) s in
  let s := from_case r 6 (k2_xor (JS.shl (b 5) 8)) s in
  let s := from_case r 5 (fun s => mix_k2 (k2_xor (b 4) s)) s in
  let s := from_case r 4 (k1_xor (JS.shl (b 3) 24)) s in
  let s := from_case r 3 (k1_xor (JS.shl (b 2) 16)) s in
  let s := from_case r 2 (k1_xor (JS.shl (b 1) 8)) s in
  let s := from_case r 1 (fun s => mix_k1 (k1_xor (b 0) s)) s in
  (h1 s, h2 s, h3 s, h4 s).

(** [h1 += h2; h1 += h3; h1 += h4; h2 += h1; h3 += h1; h4 += h1] *)
Definition combine (h : Lanes) : Lanes :=
  let '(h1, h2, h3, h4) := h in
  let h1 := JS.add h1 h2 in
  let h1 := JS.add h1 h3 in
  let h1 := JS.add h1 h4 in
  let h2 := JS.add h2 h1 in
  let h3 := JS.add h3 h1 in
  let h4 := JS.add h4 h1 in
  (h1, h2, h3, h4).

(** The lanes at the end of [compute], before they are written in hex. *)
Definition lanes (bytes : Uint8Array) (seed : Z) : Lanes :=
  let len := length_of bytes in
  let blocks := JS.shr len 4 in
  let h := (seed, seed, seed, seed) in
  let h := fold_left (block bytes) (seq 0 (Z.to_nat blocks)) h in
  let tailOffset := blocks * 16 in
  let h := tail bytes tailOffset (JS.and len 15) h in
  let '(h1, h2, h3, h4) := h in
  let h1 := JS.xor h1 len in
  let h2 := JS.xor h2 len in
  let h3 := JS.xor h3 len in
  let h4 := JS.xor h4 len in
  let '(h1, h2, h3, h4) := combine (h1, h2, h3, h4) in
  let h1 := fmix h1 in
  let h2 := fmix h2 in
  let h3 := fmix h3 in
  let h4 := fmix h4 in
  combine (h1, h2, h3, h4).

Definition compute (bytes : Uint8Array) (seed : Z) : string :=
  let '(h1, h2, h3, h4) := lanes bytes seed in
  (hex8 h1 ++ hex8 h2 ++ hex8 h3 ++ hex8 h4)%string.

Definition hash128 (input : HashInput) (options : option Hash128Options)
  : completion Digest128 :=
  let seed := seed_of options in
  let hex := compute (toBytes input) seed in
  match output_of options with
  | Some bigint =>
      match hexToBigInt hex with
      | Normal v => Normal (BigIntValue v)
      | Throw e => Throw e
      end
  | _ => Normal (HexString hex)
  end.

Record Hash128Stream : Type := mkStream {
  chunks : list Uint8Array;
  totalLength : Z;
  seed : Z;
  outputFormat : HashOutput
}.

Definition createHash128 (options : option Hash128Options) : Hash128Stream :=
  mkStream [] 0 (seed_of options)
           (match output_of options with Some o => o | None => hex end).

(** [update] pushes the bytes, adds their length and returns [this]. *)
Definition update (input : HashInput) (this : Hash128Stream) : Hash128Stream :=
  let bytes := toBytes input in
  mkStream (chunks this ++ [bytes])
           (totalLength this + length_of bytes)
           (seed this) (outputFormat this).

(** [digest] returns its result together with the stream it leaves. *)
Definition digest (this : Hash128Stream) : completion Digest128 * Hash128Stream :=
  (match assemble (chunks this) (totalLength this) with
   | Normal result =>
       let hex := compute result (seed this) in
       match outputFormat this with
       | bigint =>
           match hexToBigInt hex with
           | Normal v => Normal (BigIntValue v)
           | Throw e => Throw e
           end
       | _ => Normal (HexString hex)
       end
   | Throw e => Throw e
   end, this).

End Hash128.

(** ** hash128x64.ts

    A 64-bit value is the array [[hi, lo]] of two numbers, here a pair. *)
Module Hash128x64.

Definition U64 : Type := (Z * Z)%type.

Definition C1 : U64 := (0x87c37b91, 0x114253d5).
Definition C2 : U64 := (0x4cf5ad43, 0x2745937f).

Definition add64 (a b : U64) : U64 :=
  let a0 := JS.shr (fst a) 16 in
  let a1 := JS.and (fst a) 0xffff in
  let a2 := JS.shr (snd a) 16 in
  let a3 := JS.and (snd a) 0xffff in
  let b0 := JS.shr (fst b) 16 in
  let b1 := JS.and (fst b) 0xffff in
  let b2 := JS.shr (snd b) 16 in
  let b3 := JS.and (snd b) 0xffff in
  let c0 := 0 in
  let c1 := 0 in
  let c2 := 0 in
  let c3 := 0 in

  let c3 := JS.add c3 (JS.add a3 b3) in
  let c2 := JS.add c2 (JS.shr c3 16) in
  let c3 := JS.and c3 0xffff in

  let c2 := JS.add c2 (JS.add a2 b2) in
  let c1 := JS.add c1 (JS.shr c2 16) in
  let c2 := JS.and c2 0xffff in

  let c1 := JS.add c1 (JS.add a1 b1) in
  let c0 := JS.add c0 (JS.shr c1 16) in
  let c1 := JS.and c1 0xffff in

  let c0 := JS.add c0 (JS.add a0 b0) in
  let c0 := JS.and c0 0xffff in

  (JS.or (JS.shl c0 16) c1, JS.or (JS.shl c2 16) c3).

Definition multiply64 (a b : U64) : U64 :=
  let a0 := JS.shr (fst a) 16 in
  let a1 := JS.and (fst a) 0xffff in
  let a2 := JS.shr (snd a) 16 in
  let a3 := JS.and (snd a) 0xffff in
  let b0 := JS.shr (fst b) 16 in
  let b1 := JS.and (fst b) 0xffff in
  let b2 := JS.shr (snd b) 16 in
  let b3 := JS.and (snd b) 0xffff in
  let c0 := 0 in
  let c1 := 0 in
  let c2 := 0 in
  let c3 := 0 in

  let c3 := JS.add c3 (JS.mul a3 b3) in
  let c2 := JS.add c2 (JS.shr c3 16) in
  let c3 := JS.and c3 0xffff in

  let c2 := JS.add c2 (JS.mul a2 b3) in
  let c1 := JS.add c1 (JS.shr c2 16) in
  let c2 := JS.and c2 0xffff in

  let c2 := JS.add c2 (JS.mul a3 b2) in
  let c1 := JS.add c1 (JS.shr c2 16) in
  let c2 := JS.and c2 0xffff in

  let c1 := JS.add c1 (JS.mul a1 b3) in
  let c0 := JS.add c0 (JS.shr c1 16) in
  let c1 := JS.and c1 0xffff in

  let c1 := JS.add c1 (JS.mul a2 b2) in
  let c0 := JS.add c0 (JS.shr c1 16) in
  let c1 := JS.and c1 0xffff in

  let c1 := JS.add c1 (JS.mul a3 b1) in
  let c0 := JS.add c0 (JS.shr c1 16) in
  let c1 := JS.and c1 0xffff in

  let c0 := JS.add c0
              (JS.add (JS.add (JS.add (JS.mul a0 b3) (JS.mul a1 b2))
                              (JS.mul a2 b1))
                      (JS.mul a3 b0)) in
  let c0 := JS.and c0 0xffff in

  (JS.or (JS.shl c0 16) c1, JS.or (JS.shl c2 16) c3).

Definition rotl64 (m : U64) (n : Z) : U64 :=
  let n := JS.rem n 64 in
  if n =? 32 then (snd m, fst m)
  else if n <? 32 then
    (JS.or (JS.shl (fst m) n) (JS.shr (snd m) (JS.sub 32 n)),
     JS.or (JS.shl (snd m) n) (JS.shr (fst m) (JS.sub 32 n)))
  else
    let n := JS.sub n 32 in
    (JS.or (JS.shl (snd m) n) (JS.shr (fst m) (JS.sub 32 n)),
     JS.or (JS.shl (fst m) n) (JS.shr (snd m) (JS.sub 32 n))).

Definition lshift64 (m : U64) (n : Z) : U64 :=
  let n := JS.rem n 64 in
  if n =? 0 then m
  else if n <? 32 then
    (JS.or (JS.shl (fst m) n) (JS.shr (snd m) (JS.sub 32 n)),
     JS.shl (snd m) n)
  else (JS.shl (snd m) (JS.sub n 32), 0).

Definition xor64 (a b : U64) : U64 :=
  (JS.xor (fst a) (fst b), JS.xor (snd a) (snd b)).

Definition fmix64 (h : U64) : U64 :=
  let h := xor64 h (0, JS.shr (fst h) 1) in
  let h := multiply64 h (0xff51afd7, 0xed558ccd) in
  let h := xor64 h (0, JS.shr (fst h) 1) in
  let h := multiply64 h (0xc4ceb9fe, 0x1a85ec53) in
  let h := xor64 h (0, JS.shr (fst h) 1) in
  h.

Definition word (bytes : Uint8Array) (o : Z) : Z :=
  JS.or (JS.or (JS.or (get bytes o)
                      (JS.shl (get bytes (o + 1)) 8))
               (JS.shl (get bytes (o + 2)) 16))
        (JS.shl (get bytes (o + 3)) 24).

Definition Lanes : Type := (U64 * U64)%type.

(** The statements of the block loop after the two 64-bit words are
    read. *)
Definition mix (h : Lanes) (k : Lanes) : Lanes :=
  let '(h1, h2) := h in
  let '(k1, k2) := k in
  let k1 := multiply64 k1 C1 in
  let k1 := rotl64 k1 31 in
  let k1 := multiply64 k1 C2 in
  let h1 := xor64 h1 k1 in

  let h1 := rotl64 h1 27 in
  let h1 := add64 h1 h2 in
  let h1 := add64 (multiply64 h1 (0, 5)) (0, 0x52dce729) in

  let k2 := multiply64 k2 C2 in
  let k2 := rotl64 k2 33 in
  let k2 := multiply64 k2 C1 in
  let h2 := xor64 h2 k2 in

  let h2 := rotl64 h2 31 in
  let h2 := add64 h2 h1 in
  let h2 := add64 (multiply64 h2 (0, 5)) (0, 0x38495ab5) in
  (h1, h2).

Definition block (bytes : Uint8Array) (h : Lanes) (i : nat) : Lanes :=
  let offset := Z.of_nat i * 16 in
  let k1 := (word bytes (offset + 4), word bytes offset) in
  let k2 := (word bytes (offset + 12), word bytes (offset + 8)) in
  mix h (k1, k2).

(** The variables live in the [switch (len & 15)]. *)
Record Regs : Type := mkRegs { k1 : U64; k2 : U64; h1 : U64; h2 : U64 }.

Definition k1_xor (v : U64) (s : Regs) : Regs :=
  mkRegs (xor64 (k1 s) v) (k2 s) (h1 s) (h2 s).
Definition k2_xor (v : U64) (s : Regs) : Regs :=
  mkRegs (k1 s) (xor64 (k2 s) v) (h1 s) (h2 s).

Definition mix_k1 (s : Regs) : Regs :=
  let k := multiply64 (k1 s) C1 in
  let k := rotl64 k 31 in
  let k := multiply64 k C2 in
  mkRegs k (k2 s) (xor64 (h1 s) k) (h2 s).
Definition mix_k2 (s : Regs) : Regs :=
  let k := multiply64 (k2 s) C2 in
  let k := rotl64 k 33 in
  let k := multiply64 k C1 in
  mkRegs (k1 s) k (h1 s) (xor64 (h2 s) k).

Definition tail (bytes : Uint8Array) (tailOffset r : Z) (h : Lanes) : Lanes :=
  let b := fun j => get bytes (tailOffset + j) in
  let s := mkRegs (0, 0) (0, 0) (fst h) (snd h) in
  let s := from_case r 15 (k2_xor (lshift64 (0, b 14) 48)) s in
  let s := from_case r 14 (k2_xor (lshift64 (0, b 13) 40)) s in
  let s := from_case r 13 (k2_xor (lshift64 (0, b 12) 32)) s in
  let s := from_case r 12 (k2_xor (lshift64 (0, b 11) 24)) s in
  let s := from_case r 11 (k2_xor (lshift64 (0, b 10) 16)) s in
  let s := from_case r 10 (k2_xor (lshift64 (0, b 9) 8)) s in
  let s := from_case r 9 (fun s => mix_k2 (k2_xor (0, b 8) s)) s in
  let s := from_case r 8 (k1_xor (lshift64 (0, b 7) 56)) s in
  let s := from_case r 7 (k1_xor (lshift64 (0, b 6) 48)) s in
  let s := from_case r 6 (k1_xor (lshift64 (0, b 5) 40)) s in
  let s := from_case r 5 (k1_xor (lshift64 (0, b 4) 32)) s in
  let s := from_case r 4 (k1_xor (lshift64 (0, b 3) 24)) s in
  let s := from_case r 3 (k1_xor (lshift64 (0, b 2) 16)) s in
  let s := from_case r 2 (k1_xor (lshift64 (0, b 1) 8)) s in
  let s := from_case r 1 (fun s => mix_k1 (k1_xor (0, b 0) s)) s in
  (h1 s, h2 s).

(** The lanes at the end of [compute], before they are written in hex. *)
Definition lanes (bytes : Uint8Array) (seed : Z) : Lanes :=
  let len := length_of bytes in
  let blocks := JS.shr len 4 in
  let h := ((0, seed), (0, seed)) in
  let h := fold_left (block bytes) (seq 0 (Z.to_nat blocks)) h in
  let tailOffset := blocks * 16 in
  let '(h1, h2) := tail bytes tailOffset (JS.and len 15) h in
  let h1 := xor64 h1 (0, len) in
  let h2 := xor64 h2 (0, len) in
  let h1 := add64 h1 h2 in
  let h2 := add64 h2 h1 in
  let h1 := fmix64 h1 in
  let h2 := fmix64 h2 in
  let h1 := add64 h1 h2 in
  let h2 := add64 h2 h1 in
  (h1, h2).

Definition compute (bytes : Uint8Array) (seed : Z) : string :=
  let '(h1, h2) := lanes bytes seed in
  (hex8 (fst h1) ++ hex8 (snd h1) ++ hex8 (fst h2) ++ hex8 (snd h2))%string.

Definition hash128x64 (input : HashInput) (options : option Hash128Options)
  : completion Digest128 :=
  let seed := seed_of options in
  let hex := compute (toBytes input) seed in
  match output_of options with
  | Some bigint =>
      match hexToBigInt hex with
      | Normal v => Normal (BigIntValue v)
      | Throw e => Throw e
      end
  | _ => Normal (HexString hex)
  end.

Record Hash128x64Stream : Type := mkStream {
  chunks : list Uint8Array;
  totalLength : Z;
  seed : Z;
  outputFormat : HashOutput
}.

Definition createHash128x64 (options : option Hash128Options) : Hash128x64Stream :=
  mkStream [] 0 (seed_of options)
           (match output_of options with Some o => o | None => hex end).

(** [update] pushes the bytes, adds their length and returns [this]. *)
Definition update (input : HashInput) (this : Hash128x64Stream) : Hash128x64Stream :=
  let bytes := toBytes input in
  mkStream (chunks this ++ [bytes])
           (totalLength this + length_of bytes)
           (seed this) (outputFormat this).

(** [digest] returns its result together with the stream it leaves. *)
Definition digest (this : Hash128x64Stream) : completion Digest128 * Hash128x64Stream :=
  (match assemble (chunks this) (totalLength this) with
   | Normal result =>
       let hex := compute result (seed this) in
       match outputFormat this with
       | bigint =>
           match hexToBigInt hex with
           | Normal v => Normal (BigIntValue v)
           | Throw e => Throw e
           end
       | _ => Normal (HexString hex)
       end
   | Throw e => Throw e
   end, this).

End Hash128x64.

(** ** Notions the properties are stated with *)

(** The unsigned 64-bit value a limb pair [[hi, lo]] stands for; a limb
    counts modulo [2^32], whatever its sign. *)
Definition value64 (p : Hash128x64.U64) : Z :=
  JS.toUint32 (fst p) * 2 ^ 32 + JS.toUint32 (snd p).

(** Left rotation of a 64-bit value [v] by [n] bits, [0 <= n < 64]. *)
Definition rotate_left64 (v n : Z) : Z :=
  (v * 2 ^ n) mod 2 ^ 64 + v / 2 ^ (64 - n).

(** The per-lane step of the x86 128-bit block mixing as the
    specification words it: lane [i] mixes its word [k] with the constants
    [Ci] and [Cn], rotates, and adds [h_next], the value read from the
    next lane. *)
Definition lane_update (Ci r Cn s A : Z) (h k h_next : Z) : Z :=
  let k := Prim32.multiply k Ci in
  let k := Prim32.rotl k r in
  let k := Prim32.multiply k Cn in
  let h := JS.xor h k in
  let h := Prim32.rotl h s in
  let h := JS.add h h_next in
  JS.add (Prim32.multiply h 5) A.

Definition lane1 := lane_update Hash128.C1 15 Hash128.C2 19 0x561ccd1b.
Definition lane2 := lane_update Hash128.C2 16 Hash128.C3 17 0x0bcaa747.
Definition lane3 := lane_update Hash128.C3 17 Hash128.C4 15 0x96cd1c35.
Definition lane4 := lane_update Hash128.C4 18 Hash128.C1 13 0x32ac3b17.

(** The block mixing in which every lane, lane 4 included, reads the
    value its next lane held when the iteration began. *)
Definition mix_pre_update (h k : Hash128.Lanes) : Hash128.Lanes :=
  let '(h1, h2, h3, h4) := h in
  let '(k1, k2, k3, k4) := k in
  (lane1 h1 k1 h2, lane2 h2 k2 h3, lane3 h3 k3 h4, lane4 h4 k4 h1).

(** The digest of an input made of exactly one 16-byte block, with the
    block mixing left open: the seed fills the lanes, [mixing] consumes the
    block, and the finalization of [Hash128.lanes] follows for length 16. *)
Definition one_block_digest
  (mixing : Hash128.Lanes -> Hash128.Lanes -> Hash128.Lanes)
  (bytes : Uint8Array) (seed : Z) : string :=
  let k := (Hash128.word bytes 0, Hash128.word bytes 4,
            Hash128.word bytes 8, Hash128.word bytes 12) in
  let '(h1, h2, h3, h4) := mixing (seed, seed, seed, seed) k in
  let h1 := JS.xor h1 16 in
  let h2 := JS.xor h2 16 in
  let h3 := JS.xor h3 16 in
  let h4 := JS.xor h4 16 in
  let '(h1, h2, h3, h4) := Hash128.combine (h1, h2, h3, h4) in
  let h1 := Prim32.fmix h1 in
  let h2 := Prim32.fmix h2 in
  let h3 := Prim32.fmix h3 in
  let h4 := Prim32.fmix h4 in
  let '(h1, h2, h3, h4) := Hash128.combine (h1, h2, h3, h4) in
  (hex8 h1 ++ hex8 h2 ++ hex8 h3 ++ hex8 h4)%string.

(** [k] hexadecimal digits of [n], least significant last, in front of
    [acc]. *)
Fixpoint hex_fixed (k : nat) (n : Z) (acc : string) : string :=
  match k with
  | O => acc
  | S k' => hex_fixed k' (n / 16) (String (hex_digit (n mod 16)) acc)
  end.

Fixpoint zeros (j : nat) : string :=
  match j with
  | O => EmptyString
  | S j' => String "0" (zeros j')
  end.

Definition lower_hex_char (c : ascii) : bool :=
  let n := Z.of_nat (nat_of_ascii c) in
  ((48 <=? n) && (n <=? 57)) || ((97 <=? n) && (n <=? 102)).

Fixpoint string_forall (p : ascii -> bool) (s : string) : bool :=
  match s with
  | EmptyString => true
  | String c s' => p c && string_forall p s'
  end.

(** The sum of the lengths of the chunks. *)
Definition total_length (chunks : list Uint8Array) : Z :=
  fold_right (fun c n => length_of c + n) 0 chunks.

(** [stream.update(c1)...update(cn)] *)
Definition updates {S : Type} (update : HashInput -> S -> S)
  (inputs : list HashInput) (stream : S) : S :=
  fold_left (fun s c => update c s) inputs stream.

Definition options_of (seed : option Z) (out : option HashOutput)
  : option Hash128Options :=
  Some {| seed := seed; output := out |}.

(** Two numbers the bitwise operators cannot tell apart. *)
Definition same32 (a b : Z) : Prop := a mod 2 ^ 32 = b mod 2 ^ 32.

Definition same64 (a b : Hash128x64.U64) : Prop :=
  same32 (fst a) (fst b) /\ same32 (snd a) (snd b).

Definition same_lanes (a b : Hash128.Lanes) : Prop :=
  let '(a1, a2, a3, a4) := a in
  let '(b1, b2, b3, b4) := b in
  same32 a1 b1 /\ same32 a2 b2 /\ same32 a3 b3 /\ same32 a4 b4.

(** A number to which a signed 32-bit quantity can be added without
    rounding. *)
Definition small (h : Z) : Prop := - (2 ^ 53 - 2 ^ 31) <= h <= 2 ^ 53 - 2 ^ 31.

(** States of the three tail switches that agree on the partial words and
    hold lanes the bitwise operators cannot tell apart. *)
Definition tail_rel32 (s s' : Z * Z) : Prop :=
  fst s = fst s' /\ same32 (snd s) (snd s').

Definition tail_rel128 (s s' : Hash128.Regs) : Prop :=
  Hash128.k1 s = Hash128.k1 s' /\ Hash128.k2 s = Hash128.k2 s' /\
  Hash128.k3 s = Hash128.k3 s' /\ Hash128.k4 s = Hash128.k4 s' /\
  same32 (Hash128.h1 s) (Hash128.h1 s') /\
  same32 (Hash128.h2 s) (Hash128.h2 s') /\
  same32 (Hash128.h3 s) (Hash128.h3 s') /\
  same32 (Hash128.h4 s) (Hash128.h4 s').

Definition tail_rel64 (s s' : Hash128x64.Regs) : Prop :=
  Hash128x64.k1 s = Hash128x64.k1 s' /\ Hash128x64.k2 s = Hash128x64.k2 s' /\
  same64 (Hash128x64.h1 s) (Hash128x64.h1 s') /\
  same64 (Hash128x64.h2 s) (Hash128x64.h2 s').

(** ** Notions for the further properties *)

(** Left rotation of a 32-bit value [v] by [n] bits, [0 <= n < 32]. *)
Definition rotate_left32 (v n : Z) : Z :=
  (v * 2 ^ n) mod 2 ^ 32 + v / 2 ^ (32 - n).

(** [x ^ (x >> k)] on a non-negative integer. *)
Definition xorshift (k x : Z) : Z := Z.lxor x (Z.shiftr x k).

(** The final mix of a 32-bit word, in arithmetic modulo [2^32]. *)
Definition fmix32_words (h : Z) : Z :=
  let h := xorshift 16 h in
  let h := (h * 0x85ebca6b) mod 2 ^ 32 in
  let h := xorshift 13 h in
  let h := (h * 0xc2b2ae35) mod 2 ^ 32 in
  xorshift 16 h.

(** The final mix of a 64-bit word, in arithmetic modulo [2^64]. *)
Definition fmix64_words (k : Z) : Z :=
  let k := xorshift 33 k in
  let k := (k * 0xff51afd7ed558ccd) mod 2 ^ 64 in
  let k := xorshift 33 k in
  let k := (k * 0xc4ceb9fe1a85ec53) mod 2 ^ 64 in
  xorshift 33 k.

(** The four bytes at [o], read as a little-endian 32-bit word. *)
Definition le32 (bytes : Uint8Array) (o : Z) : Z :=
  get bytes o + get bytes (o + 1) * 2 ^ 8 + get bytes (o + 2) * 2 ^ 16
  + get bytes (o + 3) * 2 ^ 24.

(** The block step of [hash32] on unsigned 32-bit words. *)
Definition block32_words (h k : Z) : Z :=
  let k := (k * Hash32.C1) mod 2 ^ 32 in
  let k := rotate_left32 k 15 in
  let k := (k * Hash32.C2) mod 2 ^ 32 in
  let h := Z.lxor h k in
  let h := rotate_left32 h 13 in
  (h * 5 + 0xe6546b64) mod 2 ^ 32.

(** One lane of the block step of [hash128] on unsigned 32-bit words. *)
Definition lane_words (Ci r Cn s A : Z) (h k h_next : Z) : Z :=
  let k := (k * Ci) mod 2 ^ 32 in
  let k := rotate_left32 k r in
  let k := (k * Cn) mod 2 ^ 32 in
  let h := Z.lxor h k in
  let h := rotate_left32 h s in
  let h := (h + h_next) mod 2 ^ 32 in
  (h * 5 + A) mod 2 ^ 32.

(** The block step of [hash128] on unsigned 32-bit words: lanes 1 to 3 add
    the old next lane, lane 4 adds the new lane 1. *)
Definition mix128_words (h k : Hash128.Lanes) : Hash128.Lanes :=
  let '(h1, h2, h3, h4) := h in
  let '(k1, k2, k3, k4) := k in
  let h1 := lane_words Hash128.C1 15 Hash128.C2 19 0x561ccd1b h1 k1 h2 in
  let h2 := lane_words Hash128.C2 16 Hash128.C3 17 0x0bcaa747 h2 k2 h3 in
  let h3 := lane_words Hash128.C3 17 Hash128.C4 15 0x96cd1c35 h3 k3 h4 in
  let h4 := lane_words Hash128.C4 18 Hash128.C1 13 0x32ac3b17 h4 k4 h1 in
  (h1, h2, h3, h4).

(** The block step of [hash128x64] on unsigned 64-bit words. *)
Definition mix64_words (h k : Z * Z) : Z * Z :=
  let '(h1, h2) := h in
  let '(k1, k2) := k in
  let c1 := 0x87c37b91114253d5 in
  let c2 := 0x4cf5ad432745937f in
  let k1 := (k1 * c1) mod 2 ^ 64 in
  let k1 := rotate_left64 k1 31 in
  let k1 := (k1 * c2) mod 2 ^ 64 in
  let h1 := Z.lxor h1 k1 in
  let h1 := rotate_left64 h1 27 in
  let h1 := (h1 + h2) mod 2 ^ 64 in
  let h1 := (h1 * 5 + 0x52dce729) mod 2 ^ 64 in
  let k2 := (k2 * c2) mod 2 ^ 64 in
  let k2 := rotate_left64 k2 33 in
  let k2 := (k2 * c1) mod 2 ^ 64 in
  let h2 := Z.lxor h2 k2 in
  let h2 := rotate_left64 h2 31 in
  let h2 := (h2 + h1) mod 2 ^ 64 in
  let h2 := (h2 * 5 + 0x38495ab5) mod 2 ^ 64 in
  (h1, h2).

(** The mixing of a word [k] of [hash32] before it is xor-ed into the
    lane. *)
Definition mix_k32 (k : Z) : Z :=
  (rotate_left32 ((k * Hash32.C1) mod 2 ^ 32) 15 * Hash32.C2) mod 2 ^ 32.

(** The [r] bytes at [off], [r] at most 3, as a little-endian number. *)
Definition tail_word (bytes : Uint8Array) (off r : Z) : Z :=
  (if 1 <=? r then get bytes off else 0)
  + (if 2 <=? r then get bytes (off + 1) * 2 ^ 8 else 0)
  + (if 3 <=? r then get bytes (off + 2) * 2 ^ 16 else 0).

(** MurmurHash3 x86 32 on unsigned 32-bit words: the seed is reduced, each
    little-endian word updates the lane, the left-over bytes are mixed in,
    and the length and the final mix close. *)
Definition hash32_words (bytes : Uint8Array) (seed : Z) : Z :=
  let len := length_of bytes in
  let h := seed mod 2 ^ 32 in
  let h := fold_left
             (fun h i => block32_words h (le32 bytes (Z.of_nat i * 4)))
             (seq 0 (Z.to_nat (len / 4))) h in
  let r := len mod 4 in
  let h := if 1 <=? r
           then Z.lxor h (mix_k32 (tail_word bytes (len / 4 * 4) r))
           else h in
  fmix32_words (Z.lxor h (len mod 2 ^ 32)).

(** ** v1-compat.ts

    The module keeps one flag, [warned].  What it reads from its
    environment is the outcome of
    [typeof process !== 'undefined' && process.env?.NODE_ENV === 'production'],
    and what it does to it is call [console.warn]; both are carried in
    the state next to the flag. *)
Module V1Compat.

Record World : Type := mkWorld {
  warned : bool;
  production : bool;
  console : list string
}.

Definition message : string :=
  "[murmur-hash] The v3.x86/v3.x64 API is deprecated. Use hash32(), hash128(), hash128x64() instead. See https://github.com/vnykmshr/murmur-hash#migration-from-v1".

Definition warnDeprecation (w : World) : World :=
  if warned w then w
  else if production w then w
  else mkWorld true (production w) (console w ++ [message]).

(** [v3.x86.hash32(key, seed)] *)
Definition x86_hash32 (key : string) (seed : option Z) (w : World)
  : Z * World :=
  let w := warnDeprecation w in
  (Hash32.hash32 (InString key) seed, w).

(** [v3.x86.hash128(key, seed)]: the options object is [{ seed }]. *)
Definition x86_hash128 (key : string) (seed : option Z) (w : World)
  : completion Digest128 * World :=
  let w := warnDeprecation w in
  (Hash128.hash128 (InString key) (Some {| seed := seed; output := None |}), w).

(** [v3.x64.hash128(key, seed)] *)
Definition x64_hash128 (key : string) (seed : option Z) (w : World)
  : completion Digest128 * World :=
  let w := warnDeprecation w in
  (Hash128x64.hash128x64 (InString key)
     (Some {| seed := seed; output := None |}), w).

End V1Compat.

(** A call of one of the three functions of [v3]. *)
Inductive V3Call : Type :=
| CallX86Hash32 (key : string) (seed : option Z)
| CallX86Hash128 (key : string) (seed : option Z)
| CallX64Hash128 (key : string) (seed : option Z).

Definition after_call (w : V1Compat.World) (c : V3Call) : V1Compat.World :=
  match c with
  | CallX86Hash32 key seed => snd (V1Compat.x86_hash32 key seed w)
  | CallX86Hash128 key seed => snd (V1Compat.x86_hash128 key seed w)
  | CallX64Hash128 key seed => snd (V1Compat.x64_hash128 key seed w)
  end.

Definition after_calls (calls : list V3Call) (w : V1Compat.World)
  : V1Compat.World :=
  fold_left after_call calls w.

(** * Properties *)

(** ** Facts on the number model *)
Section NumberFacts.

Lemma toInt32_range (z : Z) : - 2 ^ 31 <= JS.toInt32 z < 2 ^ 31.
Proof.
  unfold JS.toInt32.
  pose proof (Z.mod_pos_bound (z + 2 ^ 31) (2 ^ 32)). lia.
Qed.

Lemma toUint32_range (z : Z) : 0 <= JS.toUint32 z < 2 ^ 32.
Proof. unfold JS.toUint32. apply Z.mod_pos_bound. lia. Qed.

Lemma toInt32_small (z : Z) : - 2 ^ 31 <= z < 2 ^ 31 -> JS.toInt32 z = z.
Proof.
  intros H. unfold JS.toInt32. rewrite Z.mod_small by lia. lia.
Qed.

Lemma toUint32_small (z : Z) : 0 <= z < 2 ^ 32 -> JS.toUint32 z = z.
Proof. intros H. unfold JS.toUint32. apply Z.mod_small. lia. Qed.

Lemma toInt32_mod (z : Z) : JS.toInt32 z mod 2 ^ 32 = z mod 2 ^ 32.
Proof.
  unfold JS.toInt32.
  rewrite Zminus_mod, Zmod_mod, <- Zminus_mod.
  f_equal. lia.
Qed.

Lemma toInt32_congr (a b : Z) :
  a mod 2 ^ 32 = b mod 2 ^ 32 -> JS.toInt32 a = JS.toInt32 b.
Proof.
  intros H. unfold JS.toInt32.
  rewrite (Zplus_mod a), (Zplus_mod b), H. reflexivity.
Qed.

Lemma toInt32_toUint32 (z : Z) : JS.toInt32 (JS.toUint32 z) = JS.toInt32 z.
Proof. apply toInt32_congr. unfold JS.toUint32. apply Zmod_mod. Qed.

Lemma toUint32_toInt32 (z : Z) : JS.toUint32 (JS.toInt32 z) = JS.toUint32 z.
Proof. apply toInt32_mod. Qed.

Lemma toInt32_idem (z : Z) : JS.toInt32 (JS.toInt32 z) = JS.toInt32 z.
Proof. apply toInt32_small, toInt32_range. Qed.

Lemma round53_small (z : Z) : - 2 ^ 53 <= z <= 2 ^ 53 -> JS.round53 z = z.
Proof.
  intros H. unfold JS.round53.
  destruct (Z.leb_spec (Z.abs z) (2 ^ 53)); [reflexivity | lia].
Qed.

(** Above [2^53] only every second integer is a double, above [2^54]
    every fourth, and a tie goes to the even significand. *)
Example round53_ties_to_even :
  JS.round53 (2 ^ 53 + 1) = 2 ^ 53 /\
  JS.round53 (2 ^ 53 + 3) = 2 ^ 53 + 4 /\
  JS.round53 (2 ^ 53 + 8193) = 2 ^ 53 + 8192 /\
  JS.round53 (- (2 ^ 53 + 3)) = - (2 ^ 53 + 4) /\
  JS.round53 (2 ^ 54 + 5) = 2 ^ 54 + 4 /\
  JS.round53 (2 ^ 54 + 6) = 2 ^ 54 + 8.
Proof. repeat split. Qed.

Lemma add_exact (a b : Z) : - 2 ^ 53 <= a + b <= 2 ^ 53 -> JS.add a b = a + b.
Proof. apply round53_small. Qed.

Lemma mul_exact (a b : Z) : - 2 ^ 53 <= a * b <= 2 ^ 53 -> JS.mul a b = a * b.
Proof. apply round53_small. Qed.

(** A signed 32-bit integer is one whose bits from 31 upwards all equal
    its sign. *)
Lemma int32_shiftr (x : Z) :
  - 2 ^ 31 <= x < 2 ^ 31 <-> Z.shiftr x 31 = 0 \/ Z.shiftr x 31 = -1.
Proof.
  rewrite Z.shiftr_div_pow2 by lia.
  split; intros H; Z.div_mod_to_equations; lia.
Qed.

Lemma land_int32 (a b : Z) :
  - 2 ^ 31 <= a < 2 ^ 31 -> - 2 ^ 31 <= b < 2 ^ 31 ->
  - 2 ^ 31 <= Z.land a b < 2 ^ 31.
Proof.
  rewrite !int32_shiftr, Z.shiftr_land.
  intros [-> | ->] [-> | ->]; simpl; auto.
Qed.

Lemma lor_int32 (a b : Z) :
  - 2 ^ 31 <= a < 2 ^ 31 -> - 2 ^ 31 <= b < 2 ^ 31 ->
  - 2 ^ 31 <= Z.lor a b < 2 ^ 31.
Proof.
  rewrite !int32_shiftr, Z.shiftr_lor.
  intros [-> | ->] [-> | ->]; simpl; auto.
Qed.

Lemma lxor_int32 (a b : Z) :
  - 2 ^ 31 <= a < 2 ^ 31 -> - 2 ^ 31 <= b < 2 ^ 31 ->
  - 2 ^ 31 <= Z.lxor a b < 2 ^ 31.
Proof.
  rewrite !int32_shiftr, Z.shiftr_lxor.
  intros [-> | ->] [-> | ->]; simpl; auto.
Qed.

Lemma and_range (a b : Z) : - 2 ^ 31 <= JS.and a b < 2 ^ 31.
Proof. apply land_int32; apply toInt32_range. Qed.

Lemma or_range (a b : Z) : - 2 ^ 31 <= JS.or a b < 2 ^ 31.
Proof. apply lor_int32; apply toInt32_range. Qed.

Lemma xor_range (a b : Z) : - 2 ^ 31 <= JS.xor a b < 2 ^ 31.
Proof. apply lxor_int32; apply toInt32_range. Qed.

Lemma shl_range (a n : Z) : - 2 ^ 31 <= JS.shl a n < 2 ^ 31.
Proof. apply toInt32_range. Qed.

Lemma shr_range (a n : Z) : 0 <= JS.shr a n < 2 ^ 32.
Proof.
  unfold JS.shr.
  pose proof (toUint32_range a).
  pose proof (Z.mod_pos_bound (JS.toUint32 n) 32 ltac:(lia)).
  rewrite Z.shiftr_div_pow2 by lia.
  assert (0 < 2 ^ (JS.toUint32 n mod 32)) by (apply Z.pow_pos_nonneg; lia).
  split.
  - apply Z.div_pos; lia.
  - apply Z.div_lt_upper_bound; nia.
Qed.

(** The bitwise operators see their operands modulo [2^32] only. *)
Lemma and_congr_l (a a' b : Z) :
  a mod 2 ^ 32 = a' mod 2 ^ 32 -> JS.and a b = JS.and a' b.
Proof. intros H. unfold JS.and. now rewrite (toInt32_congr _ _ H). Qed.

Lemma xor_congr_l (a a' b : Z) :
  a mod 2 ^ 32 = a' mod 2 ^ 32 -> JS.xor a b = JS.xor a' b.
Proof. intros H. unfold JS.xor. now rewrite (toInt32_congr _ _ H). Qed.

Lemma or_congr_l (a a' b : Z) :
  a mod 2 ^ 32 = a' mod 2 ^ 32 -> JS.or a b = JS.or a' b.
Proof. intros H. unfold JS.or. now rewrite (toInt32_congr _ _ H). Qed.

Lemma shl_congr_l (a a' n : Z) :
  a mod 2 ^ 32 = a' mod 2 ^ 32 -> JS.shl a n = JS.shl a' n.
Proof. intros H. unfold JS.shl. now rewrite (toInt32_congr _ _ H). Qed.

Lemma shr_congr_l (a a' n : Z) :
  a mod 2 ^ 32 = a' mod 2 ^ 32 -> JS.shr a n = JS.shr a' n.
Proof. intros H. unfold JS.shr, JS.toUint32. now rewrite H. Qed.

Lemma or_0_r (a : Z) : JS.or a 0 = JS.toInt32 a.
Proof. unfold JS.or. change (JS.toInt32 0) with 0. apply Z.lor_0_r. Qed.

Lemma mod16_congr (a b : Z) :
  a mod 2 ^ 32 = b mod 2 ^ 32 -> a mod 2 ^ 16 = b mod 2 ^ 16.
Proof.
  intros H.
  rewrite <- (Z.mod_mod_divide a (2 ^ 32) (2 ^ 16)),
          <- (Z.mod_mod_divide b (2 ^ 32) (2 ^ 16));
    try (exists (2 ^ 16); reflexivity).
  now rewrite H.
Qed.

Lemma and_ffff (a : Z) : JS.and a 0xffff = a mod 2 ^ 16.
Proof.
  unfold JS.and. change (JS.toInt32 0xffff) with (Z.ones 16).
  rewrite Z.land_ones by lia.
  apply mod16_congr, toInt32_mod.
Qed.

Lemma shr_const (a n : Z) :
  0 <= n < 32 -> JS.shr a n = (a mod 2 ^ 32) / 2 ^ n.
Proof.
  intros H. unfold JS.shr, JS.toUint32.
  rewrite (Z.mod_small n) by lia. rewrite (Z.mod_small n) by lia.
  apply Z.shiftr_div_pow2. lia.
Qed.

Lemma shl_const (a n : Z) :
  0 <= n < 32 -> JS.shl a n = JS.toInt32 (a * 2 ^ n).
Proof.
  intros H. unfold JS.shl, JS.toUint32.
  rewrite (Z.mod_small n) by lia. rewrite (Z.mod_small n) by lia.
  rewrite Z.shiftl_mul_pow2 by lia.
  apply toInt32_congr.
  rewrite Zmult_mod, toInt32_mod, <- Zmult_mod. reflexivity.
Qed.

End NumberFacts.

(** ** The 32-bit multiplication *)

Lemma multiply_mod (a b : Z) :
  - 2 ^ 32 <= b <= 2 ^ 32 ->
  Prim32.multiply a b mod 2 ^ 32 = (a * b) mod 2 ^ 32.
Proof.
  intros Hb. unfold Prim32.multiply.
  rewrite or_0_r, toInt32_mod, !and_ffff, (shr_const a 16), shl_const by lia.
  pose proof (Z.mod_pos_bound a (2 ^ 16) ltac:(lia)) as Hal.
  pose proof (Z.mod_pos_bound a (2 ^ 32) ltac:(lia)) as Ha.
  assert (Hah : 0 <= a mod 2 ^ 32 / 2 ^ 16 < 2 ^ 16).
  { split; [apply Z.div_pos; lia | apply Z.div_lt_upper_bound; lia]. }
  set (al := a mod 2 ^ 16) in *. set (ah := a mod 2 ^ 32 / 2 ^ 16) in *.
  assert (Ea : a mod 2 ^ 32 = ah * 2 ^ 16 + al).
  { subst al ah.
    rewrite <- (Z.mod_mod_divide a (2 ^ 32) (2 ^ 16))
      by (exists (2 ^ 16); reflexivity).
    pose proof (Z.div_mod (a mod 2 ^ 32) (2 ^ 16) ltac:(lia)). lia. }
  rewrite (mul_exact al b) by nia.
  rewrite (mul_exact ah b) by nia.
  pose proof (Z.mod_pos_bound (ah * b) (2 ^ 16) ltac:(lia)) as Hu.
  pose proof (toInt32_range ((ah * b) mod 2 ^ 16 * 2 ^ 16)) as Ht.
  rewrite add_exact by nia.
  rewrite Zplus_mod, toInt32_mod.
  rewrite <- (Z.mul_mod_distr_r (ah * b) (2 ^ 16) (2 ^ 16)) by lia.
  change (2 ^ 16 * 2 ^ 16) with (2 ^ 32).
  rewrite Zmod_mod, <- Zplus_mod.
  rewrite <- (Z.mul_mod_idemp_l a b), Ea by lia.
  f_equal. ring.
Qed.

Lemma multiply_range (a b : Z) : - 2 ^ 31 <= Prim32.multiply a b < 2 ^ 31.
Proof. apply or_range. Qed.

(** The first operand of [multiply] counts modulo [2^32] only. *)
Lemma multiply_congr_l (a a' b : Z) :
  a mod 2 ^ 32 = a' mod 2 ^ 32 -> Prim32.multiply a b = Prim32.multiply a' b.
Proof.
  intros H. unfold Prim32.multiply.
  now rewrite (and_congr_l _ _ _ H), (shr_congr_l _ _ _ H).
Qed.

(** C6: for 32-bit [a] and [b] (signed or unsigned), [multiply a b] is a
    signed 32-bit integer which, read as an unsigned 32-bit integer,
    equals [a * b] modulo [2^32]. *)
Theorem multiply_wraps (a b : Z) :
  - 2 ^ 31 <= a < 2 ^ 32 -> - 2 ^ 31 <= b < 2 ^ 32 ->
  JS.toUint32 (Prim32.multiply a b) = (a * b) mod 2 ^ 32 /\
  - 2 ^ 31 <= Prim32.multiply a b < 2 ^ 31.
Proof.
  intros _ Hb. split.
  - apply multiply_mod. lia.
  - apply multiply_range.
Qed.

Lemma multiply_wraps_witness :
  (- 2 ^ 31 <= 0xcc9e2d51 < 2 ^ 32 /\ - 2 ^ 31 <= -5 < 2 ^ 32) /\
  JS.toUint32 (Prim32.multiply 0xcc9e2d51 (-5)) = (0xcc9e2d51 * -5) mod 2 ^ 32 /\
  - 2 ^ 31 <= Prim32.multiply 0xcc9e2d51 (-5) < 2 ^ 31.
Proof.
  split; [lia | apply (multiply_wraps 0xcc9e2d51 (-5)); lia].
Defined.

(** ** The 64-bit emulation *)

Ltac carry s q r :=
  rewrite (shr_const s 16) by lia;
  rewrite (Z.mod_small s (2 ^ 32)) by lia;
  rewrite (and_ffff s);
  let Hd := fresh "Hd" in
  let Hm := fresh "Hm" in
  pose proof (Z.div_mod s (2 ^ 16) ltac:(lia)) as Hd;
  pose proof (Z.mod_pos_bound s (2 ^ 16) ltac:(lia)) as Hm;
  remember (s / 2 ^ 16) as q; remember (s mod 2 ^ 16) as r.

Lemma limbs_hi_lo (x : Z) :
  0 <= JS.shr x 16 < 2 ^ 16 /\ 0 <= JS.and x 0xffff < 2 ^ 16 /\
  JS.toUint32 x = JS.shr x 16 * 2 ^ 16 + JS.and x 0xffff.
Proof.
  rewrite and_ffff, shr_const by lia. unfold JS.toUint32.
  rewrite <- (Z.mod_mod_divide x (2 ^ 32) (2 ^ 16))
    by (exists (2 ^ 16); reflexivity).
  pose proof (Z.mod_pos_bound x (2 ^ 32) ltac:(lia)).
  Z.div_mod_to_equations; lia.
Qed.

(** [(x << n) | lo] when [lo] fits in the [n] bits the shift leaves
    empty. *)
Lemma shl_or_low (x lo n : Z) :
  0 < n < 32 -> 0 <= lo < 2 ^ n ->
  JS.toUint32 (JS.or (JS.shl x n) lo) = (x * 2 ^ n) mod 2 ^ 32 + lo.
Proof.
  intros Hn Hlo. rewrite shl_const by lia. unfold JS.or.
  assert (Hp : 2 ^ n * 2 ^ (32 - n) = 2 ^ 32).
  { rewrite <- Z.pow_add_r by lia. f_equal. lia. }
  assert (Hpn : 0 < 2 ^ n) by (apply Z.pow_pos_nonneg; lia).
  assert (Hpm : 0 < 2 ^ (32 - n)) by (apply Z.pow_pos_nonneg; lia).
  assert (Hlo32 : 2 ^ n <= 2 ^ 31) by (apply Z.pow_le_mono_r; lia).
  rewrite toInt32_idem, (toInt32_small lo) by lia.
  pose proof (toInt32_mod (x * 2 ^ n)) as Hm.
  pose proof (toInt32_range (x * 2 ^ n)) as Hr.
  assert (E : exists k, JS.toInt32 (x * 2 ^ n) = k * 2 ^ n).
  { unfold JS.toInt32.
    exists (x - ((x * 2 ^ n + 2 ^ 31) / 2 ^ 32) * 2 ^ (32 - n)).
    rewrite Z.mod_eq by lia. rewrite <- Hp. ring. }
  destruct E as (k & Ek). rewrite Ek in *.
  assert (L : Z.land (k * 2 ^ n) lo = 0).
  { apply Z.bits_inj'. intros i Hi. rewrite Z.land_spec, Z.bits_0.
    destruct (Z_lt_ge_dec i n).
    - rewrite Z.mul_pow2_bits_low by lia. reflexivity.
    - rewrite (Z.bits_above_log2 lo i), andb_false_r; auto; try lia.
      destruct (Z.eq_dec lo 0) as [->|]; [simpl; lia|].
      apply Z.lt_le_trans with n; [|lia]. apply Z.log2_lt_pow2; lia. }
  rewrite <- Z.lxor_lor, <- Z.add_nocarry_lxor by assumption.
  unfold JS.toUint32 in *.
  rewrite Zplus_mod, Hm, <- Zplus_mod.
  pose proof (Z.mod_pos_bound (x * 2 ^ n) (2 ^ 32) ltac:(lia)) as Hb.
  pose proof (Z.div_mod (x * 2 ^ n) (2 ^ 32) ltac:(lia)) as Hd.
  (* the reduced product is a multiple of [2^n] *)
  assert (D : (x * 2 ^ n) mod 2 ^ 32
              = (x - (x * 2 ^ n / 2 ^ 32) * 2 ^ (32 - n)) * 2 ^ n).
  { rewrite Z.mod_eq by lia. rewrite <- Hp. ring. }
  set (j := x - (x * 2 ^ n / 2 ^ 32) * 2 ^ (32 - n)) in *.
  replace (x * 2 ^ n + lo)
    with ((x * 2 ^ n) mod 2 ^ 32 + lo + (x * 2 ^ n / 2 ^ 32) * 2 ^ 32) by lia.
  rewrite Z_mod_plus_full. apply Z.mod_small.
  rewrite D in *. assert (j < 2 ^ (32 - n)) by nia. nia.
Qed.

Lemma pack_limbs (hi lo : Z) :
  0 <= hi < 2 ^ 16 -> 0 <= lo < 2 ^ 16 ->
  JS.toUint32 (JS.or (JS.shl hi 16) lo) = hi * 2 ^ 16 + lo.
Proof.
  intros Hhi Hlo. rewrite shl_or_low by lia.
  rewrite Z.mod_small by lia. reflexivity.
Qed.

(** C5: the limb pair [multiply64 a b] stands for the product of the
    values of [a] and [b] modulo [2^64], whatever 32-bit limbs [a] and [b]
    hold. *)
Theorem multiply64_exact (a b : Hash128x64.U64) :
  value64 (Hash128x64.multiply64 a b) = (value64 a * value64 b) mod 2 ^ 64.
Proof.
  unfold value64 at 2 3.
  destruct (limbs_hi_lo (fst a)) as (Ha0 & Ha1 & ->).
  destruct (limbs_hi_lo (snd a)) as (Ha2 & Ha3 & ->).
  destruct (limbs_hi_lo (fst b)) as (Hb0 & Hb1 & ->).
  destruct (limbs_hi_lo (snd b)) as (Hb2 & Hb3 & ->).
  unfold Hash128x64.multiply64. cbv zeta.
  set (a0 := JS.shr (fst a) 16) in *. set (a1 := JS.and (fst a) 0xffff) in *.
  set (a2 := JS.shr (snd a) 16) in *. set (a3 := JS.and (snd a) 0xffff) in *.
  set (b0 := JS.shr (fst b) 16) in *. set (b1 := JS.and (fst b) 0xffff) in *.
  set (b2 := JS.shr (snd b) 16) in *. set (b3 := JS.and (snd b) 0xffff) in *.
  clearbody a0 a1 a2 a3 b0 b1 b2 b3.
  assert (P : forall x y, 0 <= x < 2 ^ 16 -> 0 <= y < 2 ^ 16 ->
                          JS.mul x y = x * y /\ 0 <= x * y <= 4294836225).
  { intros; split; [apply mul_exact|]; nia. }
  destruct (P a3 b3) as [-> H33]; auto. destruct (P a2 b3) as [-> H23]; auto.
  destruct (P a3 b2) as [-> H32]; auto. destruct (P a1 b3) as [-> H13]; auto.
  destruct (P a2 b2) as [-> H22]; auto. destruct (P a3 b1) as [-> H31]; auto.
  destruct (P a0 b3) as [-> H03]; auto. destruct (P a1 b2) as [-> H12]; auto.
  destruct (P a2 b1) as [-> H21]; auto. destruct (P a3 b0) as [-> H30]; auto.
  clear P.
  remember (a3 * b3) as p33. remember (a2 * b3) as p23.
  remember (a3 * b2) as p32. remember (a1 * b3) as p13.
  remember (a2 * b2) as p22. remember (a3 * b1) as p31.
  remember (a0 * b3) as p03. remember (a1 * b2) as p12.
  remember (a2 * b1) as p21. remember (a3 * b0) as p30.
  rewrite (add_exact 0 p33), Z.add_0_l by lia.
  carry p33 q3 r3.
  rewrite (add_exact 0 q3), Z.add_0_l by lia.
  rewrite (add_exact q3 p23) by lia.
  carry (q3 + p23) q2a r2a.
  rewrite (add_exact 0 q2a), Z.add_0_l by lia.
  rewrite (add_exact r2a p32) by lia.
  carry (r2a + p32) q2b r2b.
  rewrite (add_exact q2a q2b) by lia.
  rewrite (add_exact (q2a + q2b) p13) by lia.
  carry (q2a + q2b + p13) q1a r1a.
  rewrite (add_exact 0 q1a), Z.add_0_l by lia.
  rewrite (add_exact r1a p22) by lia.
  carry (r1a + p22) q1b r1b.
  rewrite (add_exact q1a q1b) by lia.
  rewrite (add_exact r1b p31) by lia.
  carry (r1b + p31) q1c r1c.
  rewrite (add_exact (q1a + q1b) q1c) by lia.
  rewrite (add_exact p03 p12) by lia.
  rewrite (add_exact (p03 + p12) p21) by lia.
  rewrite (add_exact (p03 + p12 + p21) p30) by lia.
  rewrite (add_exact (q1a + q1b + q1c)) by lia.
  rewrite and_ffff.
  pose proof (Z.div_mod (q1a + q1b + q1c + (p03 + p12 + p21 + p30)) (2 ^ 16)
                ltac:(lia)) as Hdz.
  pose proof (Z.mod_pos_bound (q1a + q1b + q1c + (p03 + p12 + p21 + p30))
                (2 ^ 16) ltac:(lia)) as Hmz.
  remember ((q1a + q1b + q1c + (p03 + p12 + p21 + p30)) / 2 ^ 16) as q0.
  remember ((q1a + q1b + q1c + (p03 + p12 + p21 + p30)) mod 2 ^ 16) as r0.
  unfold value64. cbn [fst snd].
  rewrite !pack_limbs by lia.
  apply Z.mod_unique_pos
    with (q := a0 * b0 * 2 ^ 32 + (a0 * b1 + a1 * b0) * 2 ^ 16
               + (a0 * b2 + a1 * b1 + a2 * b0) + q0).
  - lia.
  - subst p33 p23 p32 p13 p22 p31 p03 p12 p21 p30. lia.
Qed.

Lemma sub_32 (n : Z) : 0 <= n <= 64 -> JS.sub 32 n = 32 - n.
Proof. intros H. apply round53_small. lia. Qed.

(** One half of a rotation by [0 < n < 32]. *)
Lemma rot_half (x y n : Z) :
  0 < n < 32 ->
  JS.toUint32 (JS.or (JS.shl x n) (JS.shr y (JS.sub 32 n)))
  = (JS.toUint32 x mod 2 ^ (32 - n)) * 2 ^ n + JS.toUint32 y / 2 ^ (32 - n).
Proof.
  intros Hn. rewrite sub_32, shr_const by lia.
  assert (Hp : 2 ^ (32 - n) * 2 ^ n = 2 ^ 32).
  { rewrite <- Z.pow_add_r by lia. f_equal. lia. }
  assert (Hpn : 0 < 2 ^ n) by (apply Z.pow_pos_nonneg; lia).
  assert (Hpm : 0 < 2 ^ (32 - n)) by (apply Z.pow_pos_nonneg; lia).
  pose proof (Z.mod_pos_bound y (2 ^ 32) ltac:(lia)) as Hy.
  rewrite shl_or_low; [|lia|].
  - f_equal. unfold JS.toUint32.
    rewrite <- (Z.mul_mod_idemp_l x) by lia.
    rewrite <- Hp at 2. rewrite Z.mul_mod_distr_r by lia. reflexivity.
  - split; [apply Z.div_pos; lia|].
    apply Z.div_lt_upper_bound; lia.
Qed.

Section Rotation.
Variables (X Y n : Z).
Hypothesis Hn : 0 < n < 32.
Hypothesis HX : 0 <= X < 2 ^ 32.
Hypothesis HY : 0 <= Y < 2 ^ 32.

Let P := 2 ^ n.
Let Q := 2 ^ (32 - n).

Lemma PQ : P * Q = 2 ^ 32.
Proof. unfold P, Q. rewrite <- Z.pow_add_r by lia. f_equal. lia. Qed.

Lemma P_pos : 0 < P.
Proof. apply Z.pow_pos_nonneg; lia. Qed.

Lemma Q_pos : 0 < Q.
Proof. apply Z.pow_pos_nonneg; lia. Qed.

(** Rotation by [n] of the value with limbs [X], [Y]. *)
Lemma rotate_small :
  rotate_left64 (X * 2 ^ 32 + Y) n
  = ((X mod Q) * P + Y / Q) * 2 ^ 32 + ((Y mod Q) * P + X / Q).
Proof.
  pose proof PQ as HPQ. pose proof P_pos as HP. pose proof Q_pos as HQ.
  unfold rotate_left64. fold P.
  replace (2 ^ (64 - n)) with (2 ^ 32 * Q)
    by (unfold Q; rewrite <- Z.pow_add_r by lia; f_equal; lia).
  pose proof (Z.div_mod X Q ltac:(lia)) as EX.
  pose proof (Z.div_mod Y Q ltac:(lia)) as EY.
  pose proof (Z.mod_pos_bound X Q HQ) as BX.
  pose proof (Z.mod_pos_bound Y Q HQ) as BY.
  assert (0 <= X / Q < P).
  { split; [apply Z.div_pos; lia | apply Z.div_lt_upper_bound; lia]. }
  assert (0 <= Y / Q < P).
  { split; [apply Z.div_pos; lia | apply Z.div_lt_upper_bound; lia]. }
  set (A := X / Q) in *. set (B := X mod Q) in *.
  set (C := Y / Q) in *. set (D := Y mod Q) in *.
  assert (E1 : (X * 2 ^ 32 + Y) / (2 ^ 32 * Q) = A).
  { rewrite <- Z.div_div by lia.
    rewrite Z.div_add_l by lia. rewrite (Z.div_small Y) by lia.
    rewrite Z.add_0_r. reflexivity. }
  rewrite E1.
  assert (E2 : ((X * 2 ^ 32 + Y) * P) mod 2 ^ 64
               = (B * P + C) * 2 ^ 32 + D * P).
  { symmetry. apply Z.mod_unique_pos with (q := A).
    - split; [nia|].
      assert (B * P + C <= 2 ^ 32 - 1) by nia.
      assert (D * P <= 2 ^ 32 - P) by nia. nia.
    - change (2 ^ 64) with (2 ^ 32 * 2 ^ 32).
      rewrite EX, EY. rewrite <- HPQ. ring. }
  rewrite E2. ring.
Qed.

(** Rotation by [32 + n]. *)
Lemma rotate_large :
  rotate_left64 (X * 2 ^ 32 + Y) (32 + n)
  = ((Y mod Q) * P + X / Q) * 2 ^ 32 + ((X mod Q) * P + Y / Q).
Proof.
  pose proof PQ as HPQ. pose proof P_pos as HP. pose proof Q_pos as HQ.
  unfold rotate_left64.
  replace (64 - (32 + n)) with (32 - n) by lia. fold Q.
  replace (2 ^ (32 + n)) with (2 ^ 32 * P)
    by (unfold P; rewrite <- Z.pow_add_r by lia; reflexivity).
  pose proof (Z.div_mod X Q ltac:(lia)) as EX.
  pose proof (Z.div_mod Y Q ltac:(lia)) as EY.
  pose proof (Z.mod_pos_bound X Q HQ) as BX.
  pose proof (Z.mod_pos_bound Y Q HQ) as BY.
  assert (0 <= X / Q < P).
  { split; [apply Z.div_pos; lia | apply Z.div_lt_upper_bound; lia]. }
  assert (0 <= Y / Q < P).
  { split; [apply Z.div_pos; lia | apply Z.div_lt_upper_bound; lia]. }
  assert (E1 : (X * 2 ^ 32 + Y) / Q = X * P + Y / Q).
  { rewrite <- HPQ. replace (X * (P * Q) + Y) with (Y + (X * P) * Q) by ring.
    rewrite Z.div_add by lia. ring. }
  rewrite E1.
  set (A := X / Q) in *. set (B := X mod Q) in *.
  set (C := Y / Q) in *. set (D := Y mod Q) in *.
  assert (E2 : ((X * 2 ^ 32 + Y) * (2 ^ 32 * P)) mod 2 ^ 64
               = (D * P) * 2 ^ 32).
  { symmetry. apply Z.mod_unique_pos with (q := X * P + C).
    - split; [nia|]. assert (D * P <= 2 ^ 32 - P) by nia. nia.
    - change (2 ^ 64) with (2 ^ 32 * 2 ^ 32).
      rewrite EY at 1. rewrite <- HPQ. ring. }
  rewrite E2. rewrite EX at 1. rewrite <- HPQ. ring.
Qed.

End Rotation.

Lemma rotate_swap (X Y : Z) :
  0 <= X < 2 ^ 32 -> 0 <= Y < 2 ^ 32 ->
  rotate_left64 (X * 2 ^ 32 + Y) 32 = Y * 2 ^ 32 + X.
Proof.
  intros HX HY. unfold rotate_left64. change (64 - 32) with 32.
  rewrite Z.div_add_l, (Z.div_small Y) by lia.
  replace ((X * 2 ^ 32 + Y) * 2 ^ 32) with (Y * 2 ^ 32 + X * 2 ^ 64) by ring.
  rewrite Z_mod_plus_full, Z.mod_small by lia. lia.
Qed.

(** For every amount from 1 to 63, [rotl64] is the rotation: the limbs are
    swapped at 32, shifted across one another below 32, and swapped and
    shifted by [n - 32] above. *)
Lemma rotl64_rotates (m : Hash128x64.U64) (n : Z) :
  0 < n < 64 ->
  value64 (Hash128x64.rotl64 m n) = rotate_left64 (value64 m) n.
Proof.
  intros Hn. unfold Hash128x64.rotl64, JS.rem.
  rewrite Z.rem_small by lia.
  pose proof (toUint32_range (fst m)) as H0.
  pose proof (toUint32_range (snd m)) as H1.
  destruct (Z.eqb_spec n 32) as [->|Hne].
  - unfold value64. cbn [fst snd]. rewrite rotate_swap by assumption. reflexivity.
  - destruct (Z.ltb_spec n 32).
    + unfold value64 at 1. cbn [fst snd].
      rewrite !rot_half by lia.
      unfold value64. rewrite rotate_small by lia. reflexivity.
    + unfold value64 at 1. cbn [fst snd].
      assert (E : JS.sub n 32 = n - 32) by (apply round53_small; lia).
      rewrite E, !rot_half by lia.
      unfold value64.
      replace (rotate_left64 (JS.toUint32 (fst m) * 2 ^ 32 + JS.toUint32 (snd m)) n)
        with (rotate_left64 (JS.toUint32 (fst m) * 2 ^ 32 + JS.toUint32 (snd m))
                (32 + (n - 32))) by (f_equal; lia).
      rewrite rotate_large by lia. reflexivity.
Qed.

Lemma rotl64_rotates_witness :
  0 < 31 < 64 /\
  value64 (Hash128x64.rotl64 (0x87c37b91, 0x114253d5) 31)
  = rotate_left64 (value64 (0x87c37b91, 0x114253d5)) 31.
Proof.
  split; [lia | apply (rotl64_rotates (0x87c37b91, 0x114253d5) 31); lia].
Defined.

(** At amount 0 the two limbs are or-ed into one another. *)
Lemma rotl64_zero (m : Hash128x64.U64) :
  Hash128x64.rotl64 m 0 = (JS.or (fst m) (snd m), JS.or (snd m) (fst m)).
Proof.
  unfold Hash128x64.rotl64. cbn [JS.rem Z.rem Z.quotrem snd Z.eqb Z.ltb Z.compare].
  assert (L : forall a, JS.shl a 0 = JS.toInt32 a).
  { intros a. unfold JS.shl. change (JS.toUint32 0 mod 32) with 0.
    rewrite Z.shiftl_0_r. apply toInt32_idem. }
  assert (Rr : forall a, JS.shr a (JS.sub 32 0) = JS.toUint32 a).
  { intros a. unfold JS.shr. change (JS.toUint32 (JS.sub 32 0) mod 32) with 0.
    apply Z.shiftr_0_r. }
  rewrite !L, !Rr. unfold JS.or.
  now rewrite !toInt32_idem, !toInt32_toUint32.
Qed.

(** C7, at the rotate amount 0: [rotl64 [1, 2] 0] is [[3, 3]], the value
    [3 * 2^32 + 3], whereas the 64-bit value of [[1, 2]] rotated left by 0
    is that value itself, [2^32 + 2]. *)
Theorem rotl64_amount_0 :
  Hash128x64.rotl64 (1, 2) 0 = (3, 3) /\
  value64 (Hash128x64.rotl64 (1, 2) 0) = 12884901891 /\
  rotate_left64 (value64 (1, 2)) 0 = 4294967298.
Proof. repeat split. Qed.

(** ** Seeds beyond 32 bits *)

Lemma same32_refl (a : Z) : same32 a a.
Proof. reflexivity. Qed.

Lemma same32_toUint32 (a : Z) : same32 a (JS.toUint32 a).
Proof. unfold same32, JS.toUint32. now rewrite Zmod_mod. Qed.

Lemma same64_refl (a : Hash128x64.U64) : same64 a a.
Proof. split; reflexivity. Qed.

Lemma same_lanes_refl (a : Hash128.Lanes) : same_lanes a a.
Proof. destruct a as [[[a1 a2] a3] a4]. repeat split. Qed.

Lemma from_case_rel {A : Type} (R : A -> A -> Prop) (r k : Z) (f : A -> A) :
  (forall s s', R s s' -> R (f s) (f s')) ->
  forall s s', R s s' -> R (from_case r k f s) (from_case r k f s').
Proof. intros Hf s s' H. unfold from_case. destruct (k <=? r); auto. Qed.

(** A loop that runs at least once depends on its initial state through
    its first iteration only. *)
Lemma fold_left_first {A B : Type} (f : A -> B -> A) (l : list B) (a a' : A) :
  (forall b, f a b = f a' b) ->
  l <> [] -> fold_left f l a = fold_left f l a'.
Proof.
  intros H Hl. destruct l as [|b l]; [contradiction|]. simpl. now rewrite H.
Qed.

Lemma block32_congr (bytes : Uint8Array) (h h' : Z) (i : nat) :
  same32 h h' -> Hash32.block bytes h i = Hash32.block bytes h' i.
Proof.
  intros H. unfold Hash32.block. cbv zeta. now rewrite (xor_congr_l _ _ _ H).
Qed.

Lemma tail32_congr (bytes : Uint8Array) (off r h h' : Z) :
  same32 h h' ->
  same32 (Hash32.tail bytes off r h) (Hash32.tail bytes off r h').
Proof.
  intros H. unfold Hash32.tail. cbv zeta.
  match goal with
  | |- same32 (snd ?a) (snd ?b) => enough (tail_rel32 a b) as E by apply E
  end.
  repeat (apply from_case_rel;
          [intros [k1 x] [k1' x'] [Ek Ex]; cbn [fst snd] in *; subst k1';
           split; cbn [fst snd]; auto|]).
  - now rewrite (xor_congr_l _ _ _ Ex).
  - split; auto.
Qed.

Lemma compute32_seed (bytes : Uint8Array) (s : Z) :
  Hash32.compute bytes s = Hash32.compute bytes (JS.toUint32 s).
Proof.
  unfold Hash32.compute. cbv zeta.
  set (l := seq 0 (Z.to_nat (JS.shr (length_of bytes) 2))).
  set (off := JS.shr (length_of bytes) 2 * 4).
  set (r := JS.and (length_of bytes) 3).
  assert (E : same32
                (Hash32.tail bytes off r (fold_left (Hash32.block bytes) l s))
                (Hash32.tail bytes off r
                   (fold_left (Hash32.block bytes) l (JS.toUint32 s)))).
  { apply tail32_congr.
    destruct l as [|i l'] eqn:El.
    - apply same32_toUint32.
    - rewrite (fold_left_first _ (i :: l') s (JS.toUint32 s)).
      + apply same32_refl.
      + intros b. apply block32_congr, same32_toUint32.
      + discriminate. }
  now rewrite (xor_congr_l _ _ _ E).
Qed.

Lemma xor64_congr_l (a a' b : Hash128x64.U64) :
  same64 a a' -> Hash128x64.xor64 a b = Hash128x64.xor64 a' b.
Proof.
  intros [H0 H1]. unfold Hash128x64.xor64.
  now rewrite (xor_congr_l _ _ _ H0), (xor_congr_l _ _ _ H1).
Qed.

Lemma add64_congr_r (a b b' : Hash128x64.U64) :
  same64 b b' -> Hash128x64.add64 a b = Hash128x64.add64 a b'.
Proof.
  intros [H0 H1]. unfold Hash128x64.add64.
  now rewrite (shr_congr_l _ _ _ H0), (and_congr_l _ _ _ H0),
              (shr_congr_l _ _ _ H1), (and_congr_l _ _ _ H1).
Qed.

Lemma mix64_congr (h h' k : Hash128x64.Lanes) :
  same64 (fst h) (fst h') -> same64 (snd h) (snd h') ->
  Hash128x64.mix h k = Hash128x64.mix h' k.
Proof.
  destruct h as [a1 a2], h' as [a1' a2'], k as [k1 k2]. cbn [fst snd].
  intros H1 H2. unfold Hash128x64.mix. cbv zeta.
  now rewrite (xor64_congr_l _ _ _ H1), (xor64_congr_l _ _ _ H2),
              (add64_congr_r _ _ _ H2).
Qed.

Lemma tail64_congr (bytes : Uint8Array) (off r : Z) (h h' : Hash128x64.Lanes) :
  same64 (fst h) (fst h') -> same64 (snd h) (snd h') ->
  same64 (fst (Hash128x64.tail bytes off r h))
         (fst (Hash128x64.tail bytes off r h')) /\
  same64 (snd (Hash128x64.tail bytes off r h))
         (snd (Hash128x64.tail bytes off r h')).
Proof.
  intros H1 H2. unfold Hash128x64.tail. cbv zeta. cbn [fst snd].
  match goal with
  | |- same64 (Hash128x64.h1 ?a) (Hash128x64.h1 ?b) /\ _ =>
      enough (tail_rel64 a b) as E by (split; apply E)
  end.
  repeat (apply from_case_rel;
          [intros s s' (E1 & E2 & E3 & E4);
           unfold tail_rel64, Hash128x64.k1_xor, Hash128x64.k2_xor,
             Hash128x64.mix_k1, Hash128x64.mix_k2;
           cbn [Hash128x64.k1 Hash128x64.k2 Hash128x64.h1 Hash128x64.h2];
           rewrite ?E1, ?E2, ?(xor64_congr_l _ _ _ E3), ?(xor64_congr_l _ _ _ E4);
           split; [|split; [|split]]; auto using same64_refl |]).
  split; [|split; [|split]]; auto.
Qed.

Lemma lanes64_seed (bytes : Uint8Array) (s : Z) :
  Hash128x64.lanes bytes s = Hash128x64.lanes bytes (JS.toUint32 s).
Proof.
  unfold Hash128x64.lanes. cbv zeta.
  set (l := seq 0 (Z.to_nat (JS.shr (length_of bytes) 4))).
  set (off := JS.shr (length_of bytes) 4 * 16).
  set (r := JS.and (length_of bytes) 15).
  set (s' := JS.toUint32 s).
  assert (S0 : same64 (0, s) (0, s')).
  { split; cbn [fst snd]; [reflexivity | apply same32_toUint32]. }
  assert (E : same64 (fst (fold_left (Hash128x64.block bytes) l (0, s, (0, s))))
                     (fst (fold_left (Hash128x64.block bytes) l (0, s', (0, s'))))
              /\
              same64 (snd (fold_left (Hash128x64.block bytes) l (0, s, (0, s))))
                     (snd (fold_left (Hash128x64.block bytes) l (0, s', (0, s'))))).
  { destruct l as [|i l'] eqn:El.
    - cbn [fold_left fst snd]. auto.
    - rewrite (fold_left_first _ (i :: l') (0, s, (0, s)) (0, s', (0, s'))).
      + split; apply same64_refl.
      + intros b. unfold Hash128x64.block. cbv zeta.
        apply mix64_congr; assumption.
      + discriminate. }
  destruct E as [E1 E2].
  destruct (tail64_congr bytes off r _ _ E1 E2) as [T1 T2].
  destruct (Hash128x64.tail bytes off r
              (fold_left (Hash128x64.block bytes) l (0, s, (0, s))))
    as [t1 t2].
  destruct (Hash128x64.tail bytes off r
              (fold_left (Hash128x64.block bytes) l (0, s', (0, s'))))
    as [t1' t2'].
  cbn [fst snd] in T1, T2.
  now rewrite (xor64_congr_l _ _ _ T1), (xor64_congr_l _ _ _ T2).
Qed.

Lemma rotl_range (v n : Z) : - 2 ^ 31 <= Prim32.rotl v n < 2 ^ 31.
Proof. apply or_range. Qed.

(** Adding a lane that is [small] to a rotated lane is exact, so the sum
    is known modulo [2^32]. *)
Lemma add_lane (x y y' : Z) :
  - 2 ^ 31 <= x < 2 ^ 31 -> same32 y y' -> small y -> small y' ->
  same32 (JS.add x y) (JS.add x y').
Proof.
  unfold small, same32. intros Hx H Hy Hy'.
  rewrite !add_exact by lia.
  rewrite (Zplus_mod x y), H, <- Zplus_mod. reflexivity.
Qed.

Lemma mix128_congr (a1 a2 a3 a4 b1 b2 b3 b4 : Z) (k : Hash128.Lanes) :
  same32 a1 b1 -> same32 a2 b2 -> same32 a3 b3 -> same32 a4 b4 ->
  small a2 -> small a3 -> small a4 -> small b2 -> small b3 -> small b4 ->
  Hash128.mix (a1, a2, a3, a4) k = Hash128.mix (b1, b2, b3, b4) k.
Proof.
  destruct k as [[[k1 k2] k3] k4].
  intros H1 H2 H3 H4 S2 S3 S4 S2' S3' S4'. unfold Hash128.mix. cbv zeta.
  rewrite (xor_congr_l _ _ _ H1), (xor_congr_l _ _ _ H2),
          (xor_congr_l _ _ _ H3), (xor_congr_l _ _ _ H4).
  match goal with
  | |- context [Prim32.multiply (JS.add ?x a2) 5] =>
      rewrite (multiply_congr_l (JS.add x a2) (JS.add x b2) 5)
        by (apply add_lane; auto using rotl_range)
  end.
  match goal with
  | |- context [Prim32.multiply (JS.add ?x a3) 5] =>
      rewrite (multiply_congr_l (JS.add x a3) (JS.add x b3) 5)
        by (apply add_lane; auto using rotl_range)
  end.
  match goal with
  | |- context [Prim32.multiply (JS.add ?x a4) 5] =>
      rewrite (multiply_congr_l (JS.add x a4) (JS.add x b4) 5)
        by (apply add_lane; auto using rotl_range)
  end.
  reflexivity.
Qed.

Lemma tail128_congr (bytes : Uint8Array) (off r : Z) (a b : Hash128.Lanes) :
  same_lanes a b ->
  same_lanes (Hash128.tail bytes off r a) (Hash128.tail bytes off r b).
Proof.
  destruct a as [[[a1 a2] a3] a4], b as [[[b1 b2] b3] b4].
  intros (H1 & H2 & H3 & H4). unfold Hash128.tail, same_lanes. cbv zeta.
  match goal with
  | |- same32 (Hash128.h1 ?a) (Hash128.h1 ?b) /\ _ =>
      enough (tail_rel128 a b) as E by (repeat split; apply E)
  end.
  repeat (apply from_case_rel;
          [intros s s' (E1 & E2 & E3 & E4 & E5 & E6 & E7 & E8);
           unfold tail_rel128, Hash128.k1_xor, Hash128.k2_xor, Hash128.k3_xor,
             Hash128.k4_xor, Hash128.mix_k1, Hash128.mix_k2, Hash128.mix_k3,
             Hash128.mix_k4;
           cbn [Hash128.k1 Hash128.k2 Hash128.k3 Hash128.k4
                Hash128.h1 Hash128.h2 Hash128.h3 Hash128.h4];
           rewrite ?E1, ?E2, ?E3, ?E4,
             ?(xor_congr_l _ _ _ E5), ?(xor_congr_l _ _ _ E6),
             ?(xor_congr_l _ _ _ E7), ?(xor_congr_l _ _ _ E8);
           repeat split; auto |]).
  repeat split; auto.
Qed.

Lemma short_input_no_block (bytes : Uint8Array) :
  (List.length bytes < 16)%nat ->
  seq 0 (Z.to_nat (JS.shr (length_of bytes) 4)) = [].
Proof.
  intros H. unfold length_of.
  rewrite shr_const, Z.mod_small, Z.div_small by lia. reflexivity.
Qed.

Lemma lanes128_seed (bytes : Uint8Array) (s : Z) :
  small s \/ (List.length bytes < 16)%nat ->
  Hash128.lanes bytes s = Hash128.lanes bytes (JS.toUint32 s).
Proof.
  intros Hs. unfold Hash128.lanes. cbv zeta.
  pose proof (short_input_no_block bytes) as Hshort.
  set (l := seq 0 (Z.to_nat (JS.shr (length_of bytes) 4))) in *.
  set (off := JS.shr (length_of bytes) 4 * 16).
  set (r := JS.and (length_of bytes) 15).
  pose proof (same32_toUint32 s) as S0.
  pose proof (toUint32_range s) as U0.
  set (s' := JS.toUint32 s) in *.
  assert (E : same_lanes (fold_left (Hash128.block bytes) l (s, s, s, s))
                         (fold_left (Hash128.block bytes) l (s', s', s', s'))).
  { destruct l as [|i l'] eqn:El.
    - cbn [fold_left]. repeat split; assumption.
    - assert (Hsm : small s).
      { destruct Hs as [Hs|Hs]; [exact Hs|]. specialize (Hshort Hs). discriminate. }
      rewrite (fold_left_first _ (i :: l') (s, s, s, s) (s', s', s', s')).
      + apply same_lanes_refl.
      + intros b. unfold Hash128.block. cbv zeta.
        apply mix128_congr; auto; unfold small in *; lia.
      + discriminate. }
  pose proof (tail128_congr bytes off r _ _ E) as T.
  destruct (Hash128.tail bytes off r
              (fold_left (Hash128.block bytes) l (s, s, s, s)))
    as [[[x1 x2] x3] x4].
  destruct (Hash128.tail bytes off r
              (fold_left (Hash128.block bytes) l (s', s', s', s')))
    as [[[y1 y2] y3] y4].
  destruct T as (T1 & T2 & T3 & T4).
  now rewrite (xor_congr_l _ _ _ T1), (xor_congr_l _ _ _ T2),
              (xor_congr_l _ _ _ T3), (xor_congr_l _ _ _ T4).
Qed.

(** C8 as the code has it: [hash32] and [hash128x64] compute the digest of
    the seed reduced modulo [2^32] for every integer seed; [hash128] does
    so for every seed of magnitude at most [2^53 - 2^31], and for every
    seed when the input is shorter than one 16-byte block. *)
Theorem seed_truncation :
  (forall bytes s,
      Hash32.compute bytes s = Hash32.compute bytes (JS.toUint32 s)) /\
  (forall bytes s,
      Hash128x64.compute bytes s = Hash128x64.compute bytes (JS.toUint32 s)) /\
  (forall bytes s,
      - (2 ^ 53 - 2 ^ 31) <= s <= 2 ^ 53 - 2 ^ 31 ->
      Hash128.compute bytes s = Hash128.compute bytes (JS.toUint32 s)) /\
  (forall bytes s,
      (List.length bytes < 16)%nat ->
      Hash128.compute bytes s = Hash128.compute bytes (JS.toUint32 s)).
Proof.
  split; [|split; [|split]].
  - apply compute32_seed.
  - intros bytes s. unfold Hash128x64.compute. now rewrite lanes64_seed.
  - intros bytes s Hs. unfold Hash128.compute. rewrite lanes128_seed; auto.
  - intros bytes s Hs. unfold Hash128.compute. rewrite lanes128_seed; auto.
Qed.

Lemma seed_truncation_witness :
  (- (2 ^ 53 - 2 ^ 31) <= 2 ^ 40 + 7 <= 2 ^ 53 - 2 ^ 31) /\
  Hash128.compute (repeat x00 16) (2 ^ 40 + 7)
  = Hash128.compute (repeat x00 16) (JS.toUint32 (2 ^ 40 + 7)) /\
  (List.length (repeat x00 3) < 16)%nat /\
  Hash128.compute (repeat x00 3) (2 ^ 53 + 8192)
  = Hash128.compute (repeat x00 3) (JS.toUint32 (2 ^ 53 + 8192)).
Proof.
  split; [lia|]. split.
  - apply (proj1 (proj2 (proj2 seed_truncation)) (repeat x00 16) (2 ^ 40 + 7)). lia.
  - split; [simpl; lia|].
    apply (proj2 (proj2 (proj2 seed_truncation)) (repeat x00 3) (2 ^ 53 + 8192)).
    simpl. lia.
Defined.

(** C8 fails for [hash128] once a block is mixed with a seed that large
    that adding a lane to it rounds: [2^53 + 8192] is a number, its low 32
    bits are [8192], and the two digests of sixteen zero bytes differ. *)
Lemma seed_truncation_fails_hash128 :
  JS.is_number (2 ^ 53 + 8192) /\
  JS.toUint32 (2 ^ 53 + 8192) = 8192 /\
  Hash128.compute (repeat x00 16) (2 ^ 53 + 8192)
  <> Hash128.compute (repeat x00 16) (JS.toUint32 (2 ^ 53 + 8192)).
Proof.
  split; [reflexivity|]. split; [reflexivity|].
  vm_compute. discriminate.
Qed.

(** ** The streaming hashers *)

Lemma total_length_app (l1 l2 : list Uint8Array) :
  total_length (l1 ++ l2) = total_length l1 + total_length l2.
Proof.
  unfold total_length. induction l1 as [|c l1 IH]; simpl; [reflexivity|].
  rewrite IH. lia.
Qed.

Lemma total_length_concat (l : list Uint8Array) :
  total_length l = length_of (List.concat l).
Proof.
  unfold total_length, length_of. induction l as [|c l IH]; simpl; [reflexivity|].
  rewrite IH, length_app. lia.
Qed.

Lemma total_length_nonneg (l : list Uint8Array) : 0 <= total_length l.
Proof. rewrite total_length_concat. unfold length_of. lia. Qed.

(** Writing the chunks one after the other from offset [length pre]
    into a buffer that has exactly the room they need. *)
Lemma copy_chunks_fills (chunks : list Uint8Array) :
  forall (pre rest : Uint8Array),
    length_of rest = total_length chunks ->
    copy_chunks chunks (pre ++ rest) (length_of pre)
    = Normal (pre ++ List.concat chunks).
Proof.
  induction chunks as [|c chunks IH]; intros pre rest Hlen.
  - simpl in *. unfold length_of in Hlen.
    destruct rest; [reflexivity | simpl in Hlen; lia].
  - cbn [copy_chunks List.concat].
    change (total_length (c :: chunks)) with (length_of c + total_length chunks) in Hlen.
    pose proof (total_length_nonneg chunks) as Hnn.
    unfold typed_set, length_of in *.
    rewrite length_app.
    destruct (Z.ltb_spec (Z.of_nat (List.length pre)) 0); [lia|].
    destruct (Z.ltb_spec (Z.of_nat (List.length pre + List.length rest))
                (Z.of_nat (List.length pre) + Z.of_nat (List.length c))); [lia|].
    cbn [orb].
    rewrite Nat2Z.id.
    rewrite firstn_app, firstn_all, Nat.sub_diag, firstn_O, app_nil_r.
    rewrite skipn_app.
    rewrite (skipn_all2 pre) by lia.
    replace (List.length pre + List.length c - List.length pre)%nat
      with (List.length c) by lia.
    cbn [app].
    replace (Z.of_nat (List.length pre) + Z.of_nat (List.length c))
      with (Z.of_nat (List.length (pre ++ c))) by (rewrite length_app; lia).
    rewrite (app_assoc pre c (skipn _ rest)).
    rewrite (IH (pre ++ c) (skipn (List.length c) rest)).
    + now rewrite <- app_assoc.
    + rewrite length_skipn. lia.
Qed.

Lemma assemble_concat (chunks : list Uint8Array) :
  assemble chunks (total_length chunks) = Normal (List.concat chunks).
Proof.
  unfold assemble, new_Uint8Array.
  pose proof (total_length_nonneg chunks).
  destruct (Z.ltb_spec (total_length chunks) 0); [lia|].
  apply (copy_chunks_fills chunks [] (repeat x00 (Z.to_nat (total_length chunks)))).
  unfold length_of. rewrite repeat_length. lia.
Qed.

Lemma updates_app {S : Type} (update : HashInput -> S -> S) (l1 l2 : list HashInput) (s : S) :
  updates update (l1 ++ l2) s = updates update l2 (updates update l1 s).
Proof. unfold updates. apply fold_left_app. Qed.

Lemma updates32_state (inputs : list HashInput) (s : Hash32.Hash32Stream) :
  updates Hash32.update inputs s
  = Hash32.mkStream (Hash32.chunks s ++ map toBytes inputs)
      (Hash32.totalLength s + total_length (map toBytes inputs))
      (Hash32.seed s).
Proof.
  revert s. induction inputs as [|c inputs IH]; intros s.
  - destruct s. cbn. now rewrite app_nil_r, Z.add_0_r.
  - change (updates Hash32.update (c :: inputs) s)
      with (updates Hash32.update inputs (Hash32.update c s)).
    rewrite IH. unfold Hash32.update. cbn [Hash32.chunks Hash32.totalLength Hash32.seed map].
    rewrite <- app_assoc. cbn [app].
    change (total_length (toBytes c :: map toBytes inputs))
      with (length_of (toBytes c) + total_length (map toBytes inputs)).
    f_equal. lia.
Qed.

Lemma updates128_state (inputs : list HashInput) (s : Hash128.Hash128Stream) :
  updates Hash128.update inputs s
  = Hash128.mkStream (Hash128.chunks s ++ map toBytes inputs)
      (Hash128.totalLength s + total_length (map toBytes inputs))
      (Hash128.seed s) (Hash128.outputFormat s).
Proof.
  revert s. induction inputs as [|c inputs IH]; intros s.
  - destruct s. cbn. now rewrite app_nil_r, Z.add_0_r.
  - change (updates Hash128.update (c :: inputs) s)
      with (updates Hash128.update inputs (Hash128.update c s)).
    rewrite IH. unfold Hash128.update.
    cbn [Hash128.chunks Hash128.totalLength Hash128.seed Hash128.outputFormat map].
    rewrite <- app_assoc. cbn [app].
    change (total_length (toBytes c :: map toBytes inputs))
      with (length_of (toBytes c) + total_length (map toBytes inputs)).
    f_equal. lia.
Qed.

Lemma updates64_state (inputs : list HashInput) (s : Hash128x64.Hash128x64Stream) :
  updates Hash128x64.update inputs s
  = Hash128x64.mkStream (Hash128x64.chunks s ++ map toBytes inputs)
      (Hash128x64.totalLength s + total_length (map toBytes inputs))
      (Hash128x64.seed s) (Hash128x64.outputFormat s).
Proof.
  revert s. induction inputs as [|c inputs IH]; intros s.
  - destruct s. cbn. now rewrite app_nil_r, Z.add_0_r.
  - change (updates Hash128x64.update (c :: inputs) s)
      with (updates Hash128x64.update inputs (Hash128x64.update c s)).
    rewrite IH. unfold Hash128x64.update.
    cbn [Hash128x64.chunks Hash128x64.totalLength Hash128x64.seed
         Hash128x64.outputFormat map].
    rewrite <- app_assoc. cbn [app].
    change (total_length (toBytes c :: map toBytes inputs))
      with (length_of (toBytes c) + total_length (map toBytes inputs)).
    f_equal. lia.
Qed.

Lemma digest32_updates (seed : option Z) (inputs : list HashInput) :
  fst (Hash32.digest (updates Hash32.update inputs (Hash32.createHash32 seed)))
  = Normal (Hash32.hash32 (InBytes (List.concat (map toBytes inputs))) seed).
Proof.
  rewrite updates32_state. unfold Hash32.digest, Hash32.createHash32, Hash32.hash32.
  cbn [fst Hash32.chunks Hash32.totalLength Hash32.seed app toBytes].
  rewrite Z.add_0_l, assemble_concat. reflexivity.
Qed.

Lemma digest128_updates (options : option Hash128Options) (inputs : list HashInput) :
  fst (Hash128.digest (updates Hash128.update inputs (Hash128.createHash128 options)))
  = Hash128.hash128 (InBytes (List.concat (map toBytes inputs))) options.
Proof.
  rewrite updates128_state. unfold Hash128.digest, Hash128.createHash128, Hash128.hash128.
  cbn [fst Hash128.chunks Hash128.totalLength Hash128.seed Hash128.outputFormat
       app toBytes].
  rewrite Z.add_0_l, assemble_concat.
  destruct (output_of options) as [[|]|]; reflexivity.
Qed.

Lemma digest64_updates (options : option Hash128Options) (inputs : list HashInput) :
  fst (Hash128x64.digest
         (updates Hash128x64.update inputs (Hash128x64.createHash128x64 options)))
  = Hash128x64.hash128x64 (InBytes (List.concat (map toBytes inputs))) options.
Proof.
  rewrite updates64_state.
  unfold Hash128x64.digest, Hash128x64.createHash128x64, Hash128x64.hash128x64.
  cbn [fst Hash128x64.chunks Hash128x64.totalLength Hash128x64.seed
       Hash128x64.outputFormat app toBytes].
  rewrite Z.add_0_l, assemble_concat.
  destruct (output_of options) as [[|]|]; reflexivity.
Qed.

(** C2: for each of the three engines, every seed and output format and
    every sequence of chunks, a stream that is created, updated with the
    chunks in order and then digested returns what the one-shot function
    returns for the concatenation of the chunks. *)
Theorem streaming_equivalence :
  (forall seed inputs,
      fst (Hash32.digest (updates Hash32.update inputs (Hash32.createHash32 seed)))
      = Normal (Hash32.hash32 (InBytes (List.concat (map toBytes inputs))) seed)) /\
  (forall options inputs,
      fst (Hash128.digest
             (updates Hash128.update inputs (Hash128.createHash128 options)))
      = Hash128.hash128 (InBytes (List.concat (map toBytes inputs))) options) /\
  (forall options inputs,
      fst (Hash128x64.digest
             (updates Hash128x64.update inputs (Hash128x64.createHash128x64 options)))
      = Hash128x64.hash128x64 (InBytes (List.concat (map toBytes inputs))) options).
Proof.
  split; [|split].
  - apply digest32_updates.
  - apply digest128_updates.
  - apply digest64_updates.
Qed.

(** C10: [digest] leaves the stream as it found it (chunks, total length,
    seed and output format); hence a second [digest] returns the same
    result, and a [digest] after further updates returns the one-shot hash
    of all the chunks appended so far. *)
Theorem digest_frame :
  (forall s, snd (Hash32.digest s) = s) /\
  (forall s, snd (Hash128.digest s) = s) /\
  (forall s, snd (Hash128x64.digest s) = s) /\
  (forall s, fst (Hash32.digest (snd (Hash32.digest s))) = fst (Hash32.digest s)) /\
  (forall s, fst (Hash128.digest (snd (Hash128.digest s))) = fst (Hash128.digest s)) /\
  (forall s, fst (Hash128x64.digest (snd (Hash128x64.digest s)))
             = fst (Hash128x64.digest s)) /\
  (forall seed before after,
      let s := updates Hash32.update before (Hash32.createHash32 seed) in
      fst (Hash32.digest (updates Hash32.update after (snd (Hash32.digest s))))
      = Normal (Hash32.hash32
                  (InBytes (List.concat (map toBytes (before ++ after)))) seed)) /\
  (forall options before after,
      let s := updates Hash128.update before (Hash128.createHash128 options) in
      fst (Hash128.digest (updates Hash128.update after (snd (Hash128.digest s))))
      = Hash128.hash128
          (InBytes (List.concat (map toBytes (before ++ after)))) options) /\
  (forall options before after,
      let s := updates Hash128x64.update before
                 (Hash128x64.createHash128x64 options) in
      fst (Hash128x64.digest
             (updates Hash128x64.update after (snd (Hash128x64.digest s))))
      = Hash128x64.hash128x64
          (InBytes (List.concat (map toBytes (before ++ after)))) options).
Proof.
  repeat split.
  - intros seed before after s. cbn [snd Hash32.digest]. subst s.
    rewrite <- updates_app. apply digest32_updates.
  - intros options before after s. cbn [snd Hash128.digest]. subst s.
    rewrite <- updates_app. apply digest128_updates.
  - intros options before after s. cbn [snd Hash128x64.digest]. subst s.
    rewrite <- updates_app. apply digest64_updates.
Qed.

(** ** The shape of the digests *)

Lemma hex_digit_cases (d : Z) (P : Z -> Prop) :
  0 <= d < 16 ->
  P 0 -> P 1 -> P 2 -> P 3 -> P 4 -> P 5 -> P 6 -> P 7 ->
  P 8 -> P 9 -> P 10 -> P 11 -> P 12 -> P 13 -> P 14 -> P 15 -> P d.
Proof.
  intros H. 
  assert (d = 0 \/ d = 1 \/ d = 2 \/ d = 3 \/ d = 4 \/ d = 5 \/ d = 6 \/ d = 7 \/
          d = 8 \/ d = 9 \/ d = 10 \/ d = 11 \/ d = 12 \/ d = 13 \/ d = 14 \/ d = 15)
    as C by lia.
  intuition (subst; assumption).
Qed.

Lemma hex_digit_lower (d : Z) :
  0 <= d < 16 -> lower_hex_char (hex_digit d) = true.
Proof. intros H. pattern d. apply hex_digit_cases; auto. Qed.

Lemma hex_digit_value (d : Z) :
  0 <= d < 16 -> hex_value (hex_digit d) = Some d.
Proof. intros H. pattern d. apply hex_digit_cases; auto. Qed.

Lemma length_hex_fixed (k : nat) (n : Z) (acc : string) :
  String.length (hex_fixed k n acc) = (k + String.length acc)%nat.
Proof.
  revert n acc. induction k as [|k IH]; intros n acc; cbn [hex_fixed].
  - reflexivity.
  - rewrite IH. cbn [String.length]. lia.
Qed.

Lemma hex_fixed_app (k : nat) (n : Z) (acc rest : string) :
  (hex_fixed k n acc ++ rest)%string = hex_fixed k n (acc ++ rest).
Proof.
  revert n acc. induction k as [|k IH]; intros n acc; cbn [hex_fixed].
  - reflexivity.
  - rewrite IH. reflexivity.
Qed.

Lemma forall_hex_fixed (k : nat) (n : Z) (acc : string) :
  string_forall lower_hex_char (hex_fixed k n acc)
  = string_forall lower_hex_char acc.
Proof.
  revert n acc. induction k as [|k IH]; intros n acc; cbn [hex_fixed].
  - reflexivity.
  - rewrite IH. cbn [string_forall].
    rewrite hex_digit_lower by (apply Z.mod_pos_bound; lia). reflexivity.
Qed.

Lemma parse_hex_fixed (k : nat) (n : Z) (s : string) (a : Z) :
  parse_hex (hex_fixed k n s) a
  = parse_hex s (a * 16 ^ Z.of_nat k + n mod 16 ^ Z.of_nat k).
Proof.
  revert n s. induction k as [|k IH]; intros n s.
  - cbn [hex_fixed]. change (16 ^ Z.of_nat 0) with 1.
    rewrite Z.mod_1_r. f_equal. lia.
  - cbn [hex_fixed]. rewrite IH. cbn [parse_hex].
    rewrite hex_digit_value by (apply Z.mod_pos_bound; lia).
    f_equal. rewrite Nat2Z.inj_succ, Z.pow_succ_r by lia.
    rewrite (Z.rem_mul_r n 16 (16 ^ Z.of_nat k)) by lia. ring.
Qed.

Lemma digits_fixed (k : nat) :
  forall (fuel : nat) (n : Z) (acc : string),
    (S k <= fuel)%nat ->
    0 <= n < 16 ^ Z.of_nat (S k) ->
    (k = 0%nat \/ 16 ^ Z.of_nat k <= n) ->
    toString16_digits fuel n acc = hex_fixed (S k) n acc.
Proof.
  induction k as [|k IH]; intros fuel n acc Hf Hn Hlow.
  - destruct fuel as [|fuel]; [lia|].
    cbn [toString16_digits hex_fixed].
    change (16 ^ Z.of_nat 1) with 16 in Hn.
    rewrite Z.div_small by lia. reflexivity.
  - destruct fuel as [|fuel]; [lia|].
    destruct Hlow as [Hk|Hlow]; [discriminate|].
    rewrite Nat2Z.inj_succ, Z.pow_succ_r in Hn, Hlow by lia.
    assert (0 < 16 ^ Z.of_nat k) by (apply Z.pow_pos_nonneg; lia).
    cbn [toString16_digits].
    assert (Hq : 16 ^ Z.of_nat k <= n / 16 < 16 ^ Z.of_nat (S k)).
    { split.
      - apply Z.div_le_lower_bound; lia.
      - apply Z.div_lt_upper_bound; lia. }
    destruct (Z.eqb_spec (n / 16) 0) as [E|_]; [lia|].
    rewrite (IH fuel (n / 16)); try lia.
    reflexivity.
Qed.

Lemma zeros_fixed (j : nat) (acc : string) :
  hex_fixed j 0 acc = (zeros j ++ acc)%string.
Proof.
  revert acc. induction j as [|j IH]; intros acc; cbn [hex_fixed zeros].
  - reflexivity.
  - change (0 / 16) with 0. change (hex_digit (0 mod 16)) with "0"%char.
    rewrite IH. clear IH.
    induction j as [|j IHj]; cbn [zeros append]; [reflexivity|].
    now rewrite IHj.
Qed.

Lemma hex_fixed_pad (k j : nat) (n : Z) (acc : string) :
  0 <= n < 16 ^ Z.of_nat k ->
  hex_fixed (k + j) n acc = (zeros j ++ hex_fixed k n acc)%string.
Proof.
  revert n acc. induction k as [|k IH]; intros n acc Hn.
  - change (16 ^ Z.of_nat 0) with 1 in Hn. assert (n = 0) as -> by lia.
    cbn [Nat.add hex_fixed]. apply zeros_fixed.
  - cbn [Nat.add hex_fixed]. apply IH.
    rewrite Nat2Z.inj_succ, Z.pow_succ_r in Hn by lia.
    assert (0 < 16 ^ Z.of_nat k) by (apply Z.pow_pos_nonneg; lia).
    split; [apply Z.div_pos; lia | apply Z.div_lt_upper_bound; lia].
Qed.

Lemma substring_skip (a b : string) (m : nat) :
  substring (String.length a) m (a ++ b) = substring 0 m b.
Proof. induction a as [|c a IH]; cbn; auto. Qed.

Lemma substring_all (s : string) : substring 0 (String.length s) s = s.
Proof. induction s as [|c s IH]; cbn; [reflexivity | now rewrite IH]. Qed.

Lemma length_zeros (j : nat) : String.length (zeros j) = j.
Proof. induction j; cbn; auto. Qed.

Lemma length_append (a b : string) :
  String.length (a ++ b) = (String.length a + String.length b)%nat.
Proof. induction a as [|c a IH]; cbn; auto. Qed.

Lemma zeros_add (i j : nat) : zeros (i + j) = (zeros i ++ zeros j)%string.
Proof. induction i as [|i IH]; cbn; [reflexivity | now rewrite IH]. Qed.

Lemma append_assoc (a b c : string) : ((a ++ b) ++ c = a ++ (b ++ c))%string.
Proof. induction a as [|x a IH]; cbn; [reflexivity | now rewrite IH]. Qed.

(** The padded and sliced rendering of a lane is its eight hexadecimal
    digits. *)
Lemma hex8_fixed (h : Z) : hex8 h = hex_fixed 8 (JS.toUint32 h) EmptyString.
Proof.
  unfold hex8.
  assert (Eu : JS.shr h 0 = JS.toUint32 h).
  { rewrite shr_const by lia. change (2 ^ 0) with 1. apply Z.div_1_r. }
  rewrite Eu. pose proof (toUint32_range h) as Hu.
  set (u := JS.toUint32 h) in *.
  assert (K : exists k, (k < 8)%nat /\ 0 <= u < 16 ^ Z.of_nat (S k) /\
                        (k = 0%nat \/ 16 ^ Z.of_nat k <= u)).
  { destruct (Z_lt_ge_dec u (16 ^ 1)); [exists 0%nat; cbn; lia|].
    destruct (Z_lt_ge_dec u (16 ^ 2)); [exists 1%nat; cbn; lia|].
    destruct (Z_lt_ge_dec u (16 ^ 3)); [exists 2%nat; cbn; lia|].
    destruct (Z_lt_ge_dec u (16 ^ 4)); [exists 3%nat; cbn; lia|].
    destruct (Z_lt_ge_dec u (16 ^ 5)); [exists 4%nat; cbn; lia|].
    destruct (Z_lt_ge_dec u (16 ^ 6)); [exists 5%nat; cbn; lia|].
    destruct (Z_lt_ge_dec u (16 ^ 7)); [exists 6%nat; cbn; lia|].
    exists 7%nat; cbn; lia. }
  destruct K as (k & Hk & Hn & Hlow).
  assert (Hfuel : (S k <= S (Z.to_nat (Z.log2 u)))%nat).
  { destruct Hlow as [->|Hlow]; [lia|].
    assert (Z.of_nat k <= Z.log2 u); [|lia].
    apply Z.log2_le_pow2.
    - assert (0 < 16 ^ Z.of_nat k) by (apply Z.pow_pos_nonneg; lia). lia.
    - apply Z.le_trans with (16 ^ Z.of_nat k); [|exact Hlow].
      change 16 with (2 ^ 4). rewrite <- Z.pow_mul_r by lia.
      apply Z.pow_le_mono_r; lia. }
  unfold toString16. rewrite (digits_fixed k) by assumption.
  unfold slice_last8.
  rewrite length_append, length_hex_fixed. cbn [String.length].
  replace (8 + (S k + 0) - 8)%nat with (S k) by lia.
  change "00000000"%string with (zeros 8).
  replace (zeros 8) with (zeros (S k + (7 - k))) by (f_equal; lia).
  rewrite zeros_add, append_assoc.
  rewrite <- (length_zeros (S k)) at 1.
  rewrite substring_skip.
  rewrite <- hex_fixed_pad by assumption.
  replace (S k + (7 - k))%nat with 8%nat by lia.
  replace 8%nat with (String.length (hex_fixed 8 u EmptyString)) at 1
    by (rewrite length_hex_fixed; reflexivity).
  apply substring_all.
Qed.

Lemma string_forall_app (p : ascii -> bool) (a b : string) :
  string_forall p (a ++ b) = string_forall p a && string_forall p b.
Proof. induction a as [|c a IH]; cbn; [reflexivity|]. now rewrite IH, andb_assoc. Qed.

(** The 32 characters written for four lanes. *)
Lemma hex32_shape (a b c d : Z) :
  let s := (hex8 a ++ hex8 b ++ hex8 c ++ hex8 d)%string in
  let v := JS.toUint32 a * 2 ^ 96 + JS.toUint32 b * 2 ^ 64
           + JS.toUint32 c * 2 ^ 32 + JS.toUint32 d in
  String.length s = 32%nat /\
  string_forall lower_hex_char s = true /\
  parse_hex s 0 = Some v /\
  hexToBigInt s = Normal v.
Proof.
  intros s v.
  assert (L : String.length s = 32%nat).
  { subst s. rewrite !length_append, !hex8_fixed, !length_hex_fixed. reflexivity. }
  assert (Pv : parse_hex s 0 = Some v).
  { subst s v. rewrite !hex8_fixed, !hex_fixed_app. cbn [append].
    rewrite !parse_hex_fixed. cbn [parse_hex]. f_equal.
    pose proof (toUint32_range a). pose proof (toUint32_range b).
    pose proof (toUint32_range c). pose proof (toUint32_range d).
    change (16 ^ Z.of_nat 8) with (2 ^ 32).
    rewrite !Z.mod_small by lia. lia. }
  split; [exact L|]. split; [|split; [exact Pv|]].
  - subst s. rewrite !string_forall_app, !hex8_fixed, !forall_hex_fixed. reflexivity.
  - unfold hexToBigInt. rewrite Pv. destruct s; [discriminate L | reflexivity].
Qed.

(** C9: [hash32] returns an integer between 0 and [2^32 - 1]; [hash128]
    and [hash128x64] with hex output (the default) return a string of
    exactly 32 lower-case hexadecimal characters, and with output
    ['bigint'] the integer read from that string in base 16. *)
Theorem output_shape :
  (forall input seed, 0 <= Hash32.hash32 input seed <= 2 ^ 32 - 1) /\
  (forall input seed, exists s v,
      String.length s = 32%nat /\
      string_forall lower_hex_char s = true /\
      parse_hex s 0 = Some v /\
      Hash128.hash128 input (options_of seed None) = Normal (HexString s) /\
      Hash128.hash128 input (options_of seed (Some hex)) = Normal (HexString s) /\
      Hash128.hash128 input (options_of seed (Some bigint))
      = Normal (BigIntValue v)) /\
  (forall input seed, exists s v,
      String.length s = 32%nat /\
      string_forall lower_hex_char s = true /\
      parse_hex s 0 = Some v /\
      Hash128x64.hash128x64 input (options_of seed None) = Normal (HexString s) /\
      Hash128x64.hash128x64 input (options_of seed (Some hex))
      = Normal (HexString s) /\
      Hash128x64.hash128x64 input (options_of seed (Some bigint))
      = Normal (BigIntValue v)).
Proof.
  split; [|split].
  - intros input seed. unfold Hash32.hash32, Hash32.compute. cbv zeta.
    match goal with |- 0 <= JS.shr ?h 0 <= _ => pose proof (shr_range h 0) end.
    lia.
  - intros input seed.
    unfold Hash128.hash128, options_of, output_of, output, Hash128.compute.
    destruct (Hash128.lanes (toBytes input) _) as [[[h1 h2] h3] h4].
    destruct (hex32_shape h1 h2 h3 h4) as (L & F & Pv & B).
    eexists. eexists. rewrite B. repeat split; eassumption.
  - intros input seed.
    unfold Hash128x64.hash128x64, options_of, output_of, output,
      Hash128x64.compute.
    destruct (Hash128x64.lanes (toBytes input) _) as [[a b] [c d]].
    cbn [fst snd].
    destruct (hex32_shape a b c d) as (L & F & Pv & B).
    eexists. eexists. rewrite B. repeat split; eassumption.
Qed.

(** ** The block mixing of the x86 128-bit engine *)

(** C4 as the code has it: lanes 1, 2 and 3 add the value their next lane
    held when the iteration began; lane 4 adds the value of lane 1 that
    this same iteration has just computed. *)
Theorem mix_cross_lane_reads (h1 h2 h3 h4 k1 k2 k3 k4 : Z) :
  let h1' := lane1 h1 k1 h2 in
  Hash128.mix (h1, h2, h3, h4) (k1, k2, k3, k4)
  = (h1', lane2 h2 k2 h3, lane3 h3 k3 h4, lane4 h4 k4 h1').
Proof.
  intros h1'. subst h1'.
  unfold Hash128.mix, lane1, lane2, lane3, lane4, lane_update.
  cbv zeta. reflexivity.
Qed.

(** C4 fails for lane 4: on the zero state and the zero block the code's
    lanes differ from the lanes obtained when every lane reads the
    pre-update value of its next lane. *)
Lemma mix_lane4_reads_updated_lane1 :
  Hash128.mix (0, 0, 0, 0) (0, 0, 0, 0)
  = (1444728091, 197830471, 2530024501, -516146018) /\
  mix_pre_update (0, 0, 0, 0) (0, 0, 0, 0)
  = (1444728091, 197830471, 2530024501, 850148119) /\
  Hash128.mix (0, 0, 0, 0) (0, 0, 0, 0)
  <> mix_pre_update (0, 0, 0, 0) (0, 0, 0, 0).
Proof.
  split; [vm_compute; reflexivity|]. split; [vm_compute; reflexivity|].
  vm_compute. discriminate.
Qed.

(** The published vector for ["0123456789abcdef"], which the test suite
    of the package asserts, is the digest with the code's mixing and is
    not the digest with the mixing in which lane 4 reads the old lane 1. *)
Example published_vector_needs_updated_lane1 :
  one_block_digest Hash128.mix (list_byte_of_string "0123456789abcdef") 0
  = Hash128.compute (list_byte_of_string "0123456789abcdef") 0 /\
  Hash128.compute (list_byte_of_string "0123456789abcdef") 0
  = "fb7d440936aed30a48ad1d9b572b3bfd"%string /\
  one_block_digest mix_pre_update (list_byte_of_string "0123456789abcdef") 0
  <> "fb7d440936aed30a48ad1d9b572b3bfd"%string.
Proof.
  split; [vm_compute; reflexivity|]. split; [vm_compute; reflexivity|].
  vm_compute. discriminate.
Qed.

(** ** The two 128-bit variants *)

(** C3 fails on the empty input with seed 0, where both variants return
    thirty-two zeros. *)
Lemma variants_agree_on_empty_input :
  Hash128.hash128 (InString EmptyString) None = Hash128x64.hash128x64 (InString EmptyString) None /\
  Hash128.compute [] 0 = Hash128x64.compute [] 0.
Proof. split; vm_compute; reflexivity. Qed.

(** C3 as the code has it: the two variants differ on inputs such as
    ["test"] and ["0123456789abcdef"] with seed 0 and on the empty input
    with seed 1, not on every input. *)
Theorem variants_differ_on_test_inputs :
  Hash128.hash128 (InString "test") None
  <> Hash128x64.hash128x64 (InString "test") None /\
  Hash128.hash128 (InString "0123456789abcdef") None
  <> Hash128x64.hash128x64 (InString "0123456789abcdef") None /\
  Hash128.hash128 (InString EmptyString) (options_of (Some 1) None)
  <> Hash128x64.hash128x64 (InString EmptyString) (options_of (Some 1) None).
Proof. repeat split; vm_compute; discriminate. Qed.

(** ** Reference vectors *)

(** C1: the three engines reproduce the published vectors. *)
Theorem reference_vectors :
  Hash32.hash32 (InString EmptyString) None = 0 /\
  Hash32.hash32 (InString "0123456789abcdef") None = 919068895 /\
  Hash32.hash32 (InString EmptyString) (Some 1) = 1364076727 /\
  Hash128.hash128 (InString EmptyString) None
  = Normal (HexString "00000000000000000000000000000000") /\
  Hash128.hash128 (InString "0123456789abcdef") None
  = Normal (HexString "fb7d440936aed30a48ad1d9b572b3bfd") /\
  Hash128x64.hash128x64 (InString EmptyString) None
  = Normal (HexString "00000000000000000000000000000000") /\
  Hash128x64.hash128x64 (InString "0123456789abcdef") None
  = Normal (HexString "4be06d94cf4ad1a787c35b5c63a708da").
Proof. repeat split; vm_compute; reflexivity. Qed.

(** The remaining vectors of the test corpus that exercise the tails. *)
Example tail_vectors :
  Hash32.hash32 (InString "0123456789abcde") None = 2250527230 /\
  Hash32.hash32 (InString "I will not buy this record, it is scratched.") None
  = 2832214938 /\
  Hash128.hash128 (InString "0123456789abcde") None
  = Normal (HexString "3c76c46d4d0818c0add433daa78673fa") /\
  Hash128.hash128 (InString "I will not buy this record, it is scratched.") None
  = Normal (HexString "a0a9683b25ac5e40d9af2895890dddf5") /\
  Hash128.hash128 (InString EmptyString) (options_of (Some 1) None)
  = Normal (HexString "88c4adec54d201b954d201b954d201b9") /\
  Hash128x64.hash128x64 (InString "0123456789abcde") None
  = Normal (HexString "a62dd5f6c0bf23514fccf50c7c544cf0") /\
  Hash128x64.hash128x64
    (InString "I will not buy this record, it is scratched.") None
  = Normal (HexString "c382657f9a06c49d4a71fdc6d9b0d48f") /\
  Hash128x64.hash128x64 (InString EmptyString) (options_of (Some 1) None)
  = Normal (HexString "4610abe56eff5cb551622daa78f83583").
Proof. repeat split; vm_compute; reflexivity. Qed.

(** ** Further properties of the 64-bit emulation and the 32-bit helpers *)

(** The product of two limb pairs, as a helper for what follows: the
    value of [multiply64 a b] is the product of the values modulo [2^64]. *)
Lemma multiply64_value (a b : Hash128x64.U64) :
  value64 (Hash128x64.multiply64 a b) = (value64 a * value64 b) mod 2 ^ 64.
Proof.
  unfold value64 at 2 3.
  destruct (limbs_hi_lo (fst a)) as (Ha0 & Ha1 & ->).
  destruct (limbs_hi_lo (snd a)) as (Ha2 & Ha3 & ->).
  destruct (limbs_hi_lo (fst b)) as (Hb0 & Hb1 & ->).
  destruct (limbs_hi_lo (snd b)) as (Hb2 & Hb3 & ->).
  unfold Hash128x64.multiply64. cbv zeta.
  set (a0 := JS.shr (fst a) 16) in *. set (a1 := JS.and (fst a) 0xffff) in *.
  set (a2 := JS.shr (snd a) 16) in *. set (a3 := JS.and (snd a) 0xffff) in *.
  set (b0 := JS.shr (fst b) 16) in *. set (b1 := JS.and (fst b) 0xffff) in *.
  set (b2 := JS.shr (snd b) 16) in *. set (b3 := JS.and (snd b) 0xffff) in *.
  clearbody a0 a1 a2 a3 b0 b1 b2 b3.
  assert (P : forall x y, 0 <= x < 2 ^ 16 -> 0 <= y < 2 ^ 16 ->
                          JS.mul x y = x * y /\ 0 <= x * y <= 4294836225).
  { intros; split; [apply mul_exact|]; nia. }
  destruct (P a3 b3) as [-> H33]; auto. destruct (P a2 b3) as [-> H23]; auto.
  destruct (P a3 b2) as [-> H32]; auto. destruct (P a1 b3) as [-> H13]; auto.
  destruct (P a2 b2) as [-> H22]; auto. destruct (P a3 b1) as [-> H31]; auto.
  destruct (P a0 b3) as [-> H03]; auto. destruct (P a1 b2) as [-> H12]; auto.
  destruct (P a2 b1) as [-> H21]; auto. destruct (P a3 b0) as [-> H30]; auto.
  clear P.
  remember (a3 * b3) as p33. remember (a2 * b3) as p23.
  remember (a3 * b2) as p32. remember (a1 * b3) as p13.
  remember (a2 * b2) as p22. remember (a3 * b1) as p31.
  remember (a0 * b3) as p03. remember (a1 * b2) as p12.
  remember (a2 * b1) as p21. remember (a3 * b0) as p30.
  rewrite (add_exact 0 p33), Z.add_0_l by lia.
  carry p33 q3 r3.
  rewrite (add_exact 0 q3), Z.add_0_l by lia.
  rewrite (add_exact q3 p23) by lia.
  carry (q3 + p23) q2a r2a.
  rewrite (add_exact 0 q2a), Z.add_0_l by lia.
  rewrite (add_exact r2a p32) by lia.
  carry (r2a + p32) q2b r2b.
  rewrite (add_exact q2a q2b) by lia.
  rewrite (add_exact (q2a + q2b) p13) by lia.
  carry (q2a + q2b + p13) q1a r1a.
  rewrite (add_exact 0 q1a), Z.add_0_l by lia.
  rewrite (add_exact r1a p22) by lia.
  carry (r1a + p22) q1b r1b.
  rewrite (add_exact q1a q1b) by lia.
  rewrite (add_exact r1b p31) by lia.
  carry (r1b + p31) q1c r1c.
  rewrite (add_exact (q1a + q1b) q1c) by lia.
  rewrite (add_exact p03 p12) by lia.
  rewrite (add_exact (p03 + p12) p21) by lia.
  rewrite (add_exact (p03 + p12 + p21) p30) by lia.
  rewrite (add_exact (q1a + q1b + q1c)) by lia.
  rewrite and_ffff.
  pose proof (Z.div_mod (q1a + q1b + q1c + (p03 + p12 + p21 + p30)) (2 ^ 16)
                ltac:(lia)) as Hdz.
  pose proof (Z.mod_pos_bound (q1a + q1b + q1c + (p03 + p12 + p21 + p30))
                (2 ^ 16) ltac:(lia)) as Hmz.
  remember ((q1a + q1b + q1c + (p03 + p12 + p21 + p30)) / 2 ^ 16) as q0.
  remember ((q1a + q1b + q1c + (p03 + p12 + p21 + p30)) mod 2 ^ 16) as r0.
  unfold value64. cbn [fst snd].
  rewrite !pack_limbs by lia.
  apply Z.mod_unique_pos
    with (q := a0 * b0 * 2 ^ 32 + (a0 * b1 + a1 * b0) * 2 ^ 16
               + (a0 * b2 + a1 * b1 + a2 * b0) + q0).
  - lia.
  - subst p33 p23 p32 p13 p22 p31 p03 p12 p21 p30. lia.
Qed.

(** For every amount from 1 to 63 [rotl64] returns the left rotation of the
    64-bit value of its operand. *)
Theorem rotl64_rotation (m : Hash128x64.U64) (n : Z) :
  0 < n < 64 ->
  value64 (Hash128x64.rotl64 m n) = rotate_left64 (value64 m) n /\
  0 <= rotate_left64 (value64 m) n < 2 ^ 64.
Proof.
  intros H. split; [apply rotl64_rotates; exact H|].
  rewrite <- rotl64_rotates by exact H.
  unfold value64.
  pose proof (toUint32_range (fst (Hash128x64.rotl64 m n))).
  pose proof (toUint32_range (snd (Hash128x64.rotl64 m n))). lia.
Qed.

Lemma rotl64_rotation_witness :
  0 < 33 < 64 /\
  value64 (Hash128x64.rotl64 (0x4cf5ad43, 0x2745937f) 33)
  = rotate_left64 (value64 (0x4cf5ad43, 0x2745937f)) 33 /\
  0 <= rotate_left64 (value64 (0x4cf5ad43, 0x2745937f)) 33 < 2 ^ 64.
Proof.
  split; [lia | apply (rotl64_rotation (0x4cf5ad43, 0x2745937f) 33); lia].
Defined.



(** [add64] adds the values of its operands modulo [2^64]. *)
Lemma add64_value (a b : Hash128x64.U64) :
  value64 (Hash128x64.add64 a b) = (value64 a + value64 b) mod 2 ^ 64.
Proof.
  unfold value64 at 2 3.
  destruct (limbs_hi_lo (fst a)) as (Ha0 & Ha1 & ->).
  destruct (limbs_hi_lo (snd a)) as (Ha2 & Ha3 & ->).
  destruct (limbs_hi_lo (fst b)) as (Hb0 & Hb1 & ->).
  destruct (limbs_hi_lo (snd b)) as (Hb2 & Hb3 & ->).
  unfold Hash128x64.add64. cbv zeta.
  set (a0 := JS.shr (fst a) 16) in *. set (a1 := JS.and (fst a) 0xffff) in *.
  set (a2 := JS.shr (snd a) 16) in *. set (a3 := JS.and (snd a) 0xffff) in *.
  set (b0 := JS.shr (fst b) 16) in *. set (b1 := JS.and (fst b) 0xffff) in *.
  set (b2 := JS.shr (snd b) 16) in *. set (b3 := JS.and (snd b) 0xffff) in *.
  clearbody a0 a1 a2 a3 b0 b1 b2 b3.
  rewrite (add_exact a3 b3), (add_exact a2 b2), (add_exact a1 b1),
          (add_exact a0 b0) by lia.
  rewrite (add_exact 0 (a3 + b3)), Z.add_0_l by lia.
  carry (a3 + b3) q3 r3.
  rewrite (add_exact 0 q3), Z.add_0_l by lia.
  rewrite (add_exact q3 (a2 + b2)) by lia.
  carry (q3 + (a2 + b2)) q2 r2.
  rewrite (add_exact 0 q2), Z.add_0_l by lia.
  rewrite (add_exact q2 (a1 + b1)) by lia.
  carry (q2 + (a1 + b1)) q1 r1.
  rewrite (add_exact 0 q1), Z.add_0_l by lia.
  rewrite (add_exact q1 (a0 + b0)) by lia.
  rewrite and_ffff.
  pose proof (Z.div_mod (q1 + (a0 + b0)) (2 ^ 16) ltac:(lia)) as Hdz.
  pose proof (Z.mod_pos_bound (q1 + (a0 + b0)) (2 ^ 16) ltac:(lia)) as Hmz.
  remember ((q1 + (a0 + b0)) / 2 ^ 16) as q0.
  remember ((q1 + (a0 + b0)) mod 2 ^ 16) as r0.
  unfold value64. cbn [fst snd].
  rewrite !pack_limbs by lia.
  apply Z.mod_unique_pos with (q := q0); lia.
Qed.

(** [add64] adds the 64-bit values of its operands modulo [2^64], and the
    two limbs it returns are signed 32-bit numbers. *)
Theorem add64_exact (a b : Hash128x64.U64) :
  value64 (Hash128x64.add64 a b) = (value64 a + value64 b) mod 2 ^ 64 /\
  - 2 ^ 31 <= fst (Hash128x64.add64 a b) < 2 ^ 31 /\
  - 2 ^ 31 <= snd (Hash128x64.add64 a b) < 2 ^ 31.
Proof.
  split; [apply add64_value|].
  unfold Hash128x64.add64. cbv zeta. cbn [fst snd].
  split; apply or_range.
Qed.

Lemma testbit_toUint32 (z i : Z) :
  0 <= i -> Z.testbit (JS.toUint32 z) i = (i <? 32) && Z.testbit z i.
Proof.
  intros Hi. unfold JS.toUint32. destruct (Z.ltb_spec i 32).
  - now rewrite Z.mod_pow2_bits_low by lia.
  - now rewrite Z.mod_pow2_bits_high by lia.
Qed.

Lemma testbit_toInt32 (z i : Z) :
  0 <= i < 32 -> Z.testbit (JS.toInt32 z) i = Z.testbit z i.
Proof.
  intros Hi.
  pose proof (testbit_toUint32 (JS.toInt32 z) i ltac:(lia)) as H1.
  pose proof (testbit_toUint32 z i ltac:(lia)) as H2.
  rewrite toUint32_toInt32 in H1. rewrite H2 in H1.
  destruct (Z.ltb_spec i 32); [|lia]. cbn [andb] in H1. congruence.
Qed.

Lemma toUint32_xor (a b : Z) :
  JS.toUint32 (JS.xor a b) = Z.lxor (JS.toUint32 a) (JS.toUint32 b).
Proof.
  apply Z.bits_inj'. intros i Hi. unfold JS.xor.
  rewrite Z.lxor_spec, !testbit_toUint32, Z.lxor_spec by lia.
  destruct (Z.ltb_spec i 32); cbn [andb]; [|reflexivity].
  now rewrite !testbit_toInt32 by lia.
Qed.

(** The bits of a limb pair. *)
Lemma testbit_limbs (hi lo i : Z) :
  0 <= lo < 2 ^ 32 -> 0 <= i ->
  Z.testbit (hi * 2 ^ 32 + lo) i
  = if i <? 32 then Z.testbit lo i else Z.testbit hi (i - 32).
Proof.
  intros Hlo Hi. destruct (Z.ltb_spec i 32).
  - rewrite <- (Z.mod_pow2_bits_low _ 32) by lia.
    rewrite Z.add_comm, Z_mod_plus_full, Z.mod_small by lia. reflexivity.
  - replace i with ((i - 32) + 32) at 1 by lia.
    rewrite <- Z.div_pow2_bits by lia.
    rewrite Z.div_add_l, (Z.div_small lo) by lia.
    now rewrite Z.add_0_r.
Qed.

(** [xor64] is the exclusive or of the 64-bit values. *)
Lemma xor64_lxor (a b : Hash128x64.U64) :
  value64 (Hash128x64.xor64 a b) = Z.lxor (value64 a) (value64 b).
Proof.
  unfold value64, Hash128x64.xor64. cbn [fst snd].
  rewrite !toUint32_xor.
  pose proof (toUint32_range (fst a)). pose proof (toUint32_range (snd a)).
  pose proof (toUint32_range (fst b)). pose proof (toUint32_range (snd b)).
  set (x := JS.toUint32 (fst a)) in *. set (y := JS.toUint32 (snd a)) in *.
  set (u := JS.toUint32 (fst b)) in *. set (v := JS.toUint32 (snd b)) in *.
  assert (Hyv : 0 <= Z.lxor y v < 2 ^ 32).
  { split; [apply Z.lxor_nonneg; lia|].
    destruct (Z.eq_dec (Z.lxor y v) 0) as [->|Hne]; [lia|].
    apply Z.log2_lt_pow2; [assert (0 <= Z.lxor y v) by (apply Z.lxor_nonneg; lia); lia|].
    apply Z.le_lt_trans with (Z.max (Z.log2 y) (Z.log2 v)).
    - apply Z.log2_lxor; lia.
    - apply Z.max_lub_lt.
      + destruct (Z.eq_dec y 0) as [->|]; [simpl; lia|]. apply Z.log2_lt_pow2; lia.
      + destruct (Z.eq_dec v 0) as [->|]; [simpl; lia|]. apply Z.log2_lt_pow2; lia. }
  apply Z.bits_inj'. intros i Hi.
  rewrite Z.lxor_spec, !testbit_limbs by lia.
  destruct (i <? 32); now rewrite Z.lxor_spec.
Qed.

(** [xor64] is the exclusive or of the 64-bit values, limb by limb, and
    the two limbs it returns are signed 32-bit numbers. *)
Theorem xor64_value (a b : Hash128x64.U64) :
  value64 (Hash128x64.xor64 a b) = Z.lxor (value64 a) (value64 b) /\
  - 2 ^ 31 <= fst (Hash128x64.xor64 a b) < 2 ^ 31 /\
  - 2 ^ 31 <= snd (Hash128x64.xor64 a b) < 2 ^ 31.
Proof.
  split; [apply xor64_lxor|].
  unfold Hash128x64.xor64. cbn [fst snd].
  split; apply xor_range.
Qed.

Lemma toUint32_shl (a n : Z) :
  0 <= n < 32 -> JS.toUint32 (JS.shl a n) = (JS.toUint32 a * 2 ^ n) mod 2 ^ 32.
Proof.
  intros Hn. rewrite shl_const by lia. rewrite toUint32_toInt32.
  unfold JS.toUint32. now rewrite Z.mul_mod_idemp_l by lia.
Qed.

(** [rotl] is the left rotation of the 32-bit value of its operand, for
    every amount from 0 to 31. *)
Lemma rotl_value (value shift : Z) :
  0 <= shift < 32 ->
  JS.toUint32 (Prim32.rotl value shift)
  = rotate_left32 (JS.toUint32 value) shift.
Proof.
  intros Hn. unfold Prim32.rotl, rotate_left32.
  pose proof (toUint32_range value) as Hv.
  destruct (Z.eq_dec shift 0) as [->|Hne].
  - unfold JS.or, JS.shl, JS.shr.
    change (JS.toUint32 0 mod 32) with 0.
    change (JS.toUint32 (JS.sub 32 0) mod 32) with 0.
    rewrite Z.shiftl_0_r, Z.shiftr_0_r, !toInt32_idem, toInt32_toUint32, Z.lor_diag.
    rewrite toUint32_toInt32. change (32 - 0) with 32. change (2 ^ 0) with 1.
    rewrite Z.mul_1_r, Z.mod_small, Z.div_small by lia. lia.
  - rewrite rot_half by lia. f_equal.
    assert (Hp : 2 ^ (32 - shift) * 2 ^ shift = 2 ^ 32).
    { rewrite <- Z.pow_add_r by lia. f_equal. lia. }
    assert (0 < 2 ^ shift) by (apply Z.pow_pos_nonneg; lia).
    assert (0 < 2 ^ (32 - shift)) by (apply Z.pow_pos_nonneg; lia).
    rewrite <- Hp. now rewrite Z.mul_mod_distr_r by lia.
Qed.

(** [rotl] is the left rotation of the 32-bit value of its operand, for
    every amount from 0 to 31, and returns a signed 32-bit number. *)
Theorem rotl_rotates (value shift : Z) :
  0 <= shift < 32 ->
  JS.toUint32 (Prim32.rotl value shift)
  = rotate_left32 (JS.toUint32 value) shift /\
  - 2 ^ 31 <= Prim32.rotl value shift < 2 ^ 31.
Proof.
  intros H. split; [apply rotl_value; exact H | apply or_range].
Qed.

Lemma rotl_rotates_witness :
  0 <= 13 < 32 /\
  JS.toUint32 (Prim32.rotl 0xdeadbeef 13)
  = rotate_left32 (JS.toUint32 0xdeadbeef) 13 /\
  - 2 ^ 31 <= Prim32.rotl 0xdeadbeef 13 < 2 ^ 31.
Proof. split; [lia | apply (rotl_rotates 0xdeadbeef 13); lia]. Defined.

Section Shift.
Variables (X Y n : Z).
Hypothesis Hn : 0 < n < 32.
Hypothesis HX : 0 <= X < 2 ^ 32.
Hypothesis HY : 0 <= Y < 2 ^ 32.

Lemma shift_small :
  ((X * 2 ^ 32 + Y) * 2 ^ n) mod 2 ^ 64
  = ((X mod 2 ^ (32 - n)) * 2 ^ n + Y / 2 ^ (32 - n)) * 2 ^ 32
    + (Y * 2 ^ n) mod 2 ^ 32.
Proof.
  assert (HPQ : 2 ^ n * 2 ^ (32 - n) = 2 ^ 32).
  { rewrite <- Z.pow_add_r by lia. f_equal. lia. }
  assert (HP : 0 < 2 ^ n) by (apply Z.pow_pos_nonneg; lia).
  assert (HQ : 0 < 2 ^ (32 - n)) by (apply Z.pow_pos_nonneg; lia).
  set (P := 2 ^ n) in *. set (Q := 2 ^ (32 - n)) in *.
  assert (EY : (Y * P) mod 2 ^ 32 = (Y mod Q) * P).
  { rewrite <- HPQ, (Z.mul_comm P Q). now rewrite Z.mul_mod_distr_r by lia. }
  rewrite EY.
  pose proof (Z.div_mod X Q ltac:(lia)) as EX.
  pose proof (Z.div_mod Y Q ltac:(lia)) as EY'.
  pose proof (Z.mod_pos_bound X Q HQ) as BX.
  pose proof (Z.mod_pos_bound Y Q HQ) as BY.
  assert (0 <= X / Q < P).
  { split; [apply Z.div_pos; lia | apply Z.div_lt_upper_bound; lia]. }
  assert (0 <= Y / Q < P).
  { split; [apply Z.div_pos; lia | apply Z.div_lt_upper_bound; lia]. }
  set (A := X / Q) in *. set (B := X mod Q) in *.
  set (C := Y / Q) in *. set (D := Y mod Q) in *.
  symmetry. apply Z.mod_unique_pos with (q := A).
  - split; [nia|].
    assert (B * P + C <= 2 ^ 32 - 1) by nia.
    assert (D * P <= 2 ^ 32 - P) by nia. nia.
  - change (2 ^ 64) with (2 ^ 32 * 2 ^ 32).
    rewrite EX, EY'. rewrite <- HPQ. ring.
Qed.
End Shift.

(** [lshift64] shifts the 64-bit value left by [n], dropping what leaves
    the 64 bits, for every amount from 0 to 63. *)
Theorem lshift64_shifts (m : Hash128x64.U64) (n : Z) :
  0 <= n < 64 ->
  value64 (Hash128x64.lshift64 m n) = (value64 m * 2 ^ n) mod 2 ^ 64.
Proof.
  intros Hn. unfold Hash128x64.lshift64, JS.rem.
  rewrite Z.rem_small by lia.
  pose proof (toUint32_range (fst m)) as H0.
  pose proof (toUint32_range (snd m)) as H1.
  destruct (Z.eqb_spec n 0) as [->|Hne].
  - change (2 ^ 0) with 1. rewrite Z.mul_1_r, Z.mod_small; [reflexivity|].
    unfold value64. lia.
  - destruct (Z.ltb_spec n 32).
    + unfold value64. cbn [fst snd].
      rewrite rot_half, toUint32_shl by lia.
      rewrite shift_small by lia. reflexivity.
    + unfold value64. cbn [fst snd].
      assert (E : JS.sub n 32 = n - 32) by (apply round53_small; lia).
      rewrite E, toUint32_shl by lia.
      change (JS.toUint32 0) with 0. rewrite Z.add_0_r.
      set (X := JS.toUint32 (fst m)) in *. set (Y := JS.toUint32 (snd m)) in *.
      replace (2 ^ n) with (2 ^ (n - 32) * 2 ^ 32)
        by (rewrite <- Z.pow_add_r by lia; f_equal; lia).
      assert (0 < 2 ^ (n - 32)) by (apply Z.pow_pos_nonneg; lia).
      replace ((X * 2 ^ 32 + Y) * (2 ^ (n - 32) * 2 ^ 32))
        with (Y * 2 ^ (n - 32) * 2 ^ 32 + (X * 2 ^ (n - 32)) * 2 ^ 64) by ring.
      rewrite Z_mod_plus_full.
      change (2 ^ 64) with (2 ^ 32 * 2 ^ 32).
      now rewrite Z.mul_mod_distr_r by lia.
Qed.

Lemma lshift64_shifts_witness :
  0 <= 40 < 64 /\
  value64 (Hash128x64.lshift64 (0, 0xab) 40) = (value64 (0, 0xab) * 2 ^ 40) mod 2 ^ 64.
Proof. split; [lia | apply (lshift64_shifts (0, 0xab) 40); lia]. Defined.

Lemma lxor_range (n a b : Z) :
  0 <= n -> 0 <= a < 2 ^ n -> 0 <= b < 2 ^ n -> 0 <= Z.lxor a b < 2 ^ n.
Proof.
  intros Hn Ha Hb.
  destruct (Z.eq_dec n 0) as [->|Hn0].
  { change (2 ^ 0) with 1 in *.
    assert (a = 0) as -> by lia. assert (b = 0) as -> by lia. simpl. lia. }
  assert (Hnn : 0 <= Z.lxor a b) by (apply Z.lxor_nonneg; lia).
  split; [exact Hnn|].
  destruct (Z.eq_dec (Z.lxor a b) 0) as [->|Hne]; [lia|].
  apply Z.log2_lt_pow2; [lia|].
  apply Z.le_lt_trans with (Z.max (Z.log2 a) (Z.log2 b)).
  - apply Z.log2_lxor; lia.
  - apply Z.max_lub_lt.
    + destruct (Z.eq_dec a 0) as [->|]; [simpl; lia|]. apply Z.log2_lt_pow2; lia.
    + destruct (Z.eq_dec b 0) as [->|]; [simpl; lia|]. apply Z.log2_lt_pow2; lia.
Qed.

Lemma shiftr_range (n k x : Z) :
  0 <= k -> 0 <= x < 2 ^ n -> 0 <= Z.shiftr x k < 2 ^ n.
Proof.
  intros Hk Hx. rewrite Z.shiftr_div_pow2 by lia.
  assert (0 < 2 ^ k) by (apply Z.pow_pos_nonneg; lia).
  split; [apply Z.div_pos; lia|].
  apply Z.le_lt_trans with x; [|lia].
  apply Z.div_le_upper_bound; [lia|].
  replace x with (1 * x) at 1 by lia.
  apply Z.mul_le_mono_nonneg_r; lia.
Qed.

Lemma xorshift_range (n k x : Z) :
  0 <= n -> 0 <= k -> 0 <= x < 2 ^ n -> 0 <= xorshift k x < 2 ^ n.
Proof.
  intros Hn Hk Hx. apply lxor_range; auto. apply shiftr_range; auto.
Qed.

(** A xor-shift to the right loses nothing: the top bits are unchanged and
    each lower bit is recovered from the ones above it. *)
Lemma xorshift_inj (n k x y : Z) :
  0 <= n -> 0 < k -> 0 <= x < 2 ^ n -> 0 <= y < 2 ^ n ->
  xorshift k x = xorshift k y -> x = y.
Proof.
  intros Hn Hk Hx Hy E.
  assert (Hi : forall d : nat, forall i, n - Z.of_nat d <= i ->
                                         Z.testbit x i = Z.testbit y i).
  { induction d as [|d IH]; intros i Hdi.
    - destruct (Z_lt_ge_dec i 0) as [Hneg|Hpos].
      + now rewrite !Z.testbit_neg_r by lia.
      + rewrite <- (Z.mod_small x (2 ^ n)), <- (Z.mod_small y (2 ^ n)) by lia.
        now rewrite !Z.mod_pow2_bits_high by lia.
    - destruct (Z_lt_ge_dec i 0) as [Hneg|Hpos].
      + now rewrite !Z.testbit_neg_r by lia.
      + assert (B : Z.testbit (xorshift k x) i = Z.testbit (xorshift k y) i)
          by now rewrite E.
        unfold xorshift in B.
        rewrite !Z.lxor_spec, !Z.shiftr_spec in B by lia.
        rewrite (IH (i + k)) in B by lia.
        destruct (Z.testbit x i), (Z.testbit y i), (Z.testbit y (i + k));
          simpl in B; congruence. }
  apply Z.bits_inj'. intros i Hi0.
  apply (Hi (Z.to_nat n)). lia.
Qed.

Lemma mul_mod_inj (c cinv M x y : Z) :
  1 < M -> (c * cinv) mod M = 1 ->
  0 <= x < M -> 0 <= y < M ->
  (x * c) mod M = (y * c) mod M -> x = y.
Proof.
  intros HM Hc Hx Hy E.
  assert (R : forall z, 0 <= z < M -> ((z * c) mod M * cinv) mod M = z).
  { intros z Hz. rewrite Z.mul_mod_idemp_l by lia.
    rewrite <- Z.mul_assoc, <- Z.mul_mod_idemp_r, Hc by lia.
    rewrite Z.mul_1_r. apply Z.mod_small. lia. }
  rewrite <- (R x Hx), <- (R y Hy). now rewrite E.
Qed.

Lemma fmix32_words_inj (x y : Z) :
  0 <= x < 2 ^ 32 -> 0 <= y < 2 ^ 32 ->
  fmix32_words x = fmix32_words y -> x = y.
Proof.
  intros Hx Hy E. unfold fmix32_words in E. cbv zeta in E.
  pose proof (xorshift_range 32 16 x ltac:(lia) ltac:(lia) Hx) as X1.
  pose proof (xorshift_range 32 16 y ltac:(lia) ltac:(lia) Hy) as Y1.
  pose proof (Z.mod_pos_bound (xorshift 16 x * 0x85ebca6b) (2 ^ 32) ltac:(lia)) as X2.
  pose proof (Z.mod_pos_bound (xorshift 16 y * 0x85ebca6b) (2 ^ 32) ltac:(lia)) as Y2.
  pose proof (xorshift_range 32 13 _ ltac:(lia) ltac:(lia) X2) as X3.
  pose proof (xorshift_range 32 13 _ ltac:(lia) ltac:(lia) Y2) as Y3.
  apply (xorshift_inj 32 16) in E; try lia;
    try (apply Z.mod_pos_bound; lia).
  apply (mul_mod_inj _ 2127672349) in E; try lia; try reflexivity.
  apply (xorshift_inj 32 13) in E; try lia.
  apply (mul_mod_inj _ 2781581891) in E; try lia; try reflexivity.
  apply (xorshift_inj 32 16) in E; try lia.
Qed.

Lemma fmix64_words_inj (x y : Z) :
  0 <= x < 2 ^ 64 -> 0 <= y < 2 ^ 64 ->
  fmix64_words x = fmix64_words y -> x = y.
Proof.
  intros Hx Hy E. unfold fmix64_words in E. cbv zeta in E.
  pose proof (xorshift_range 64 33 x ltac:(lia) ltac:(lia) Hx) as X1.
  pose proof (xorshift_range 64 33 y ltac:(lia) ltac:(lia) Hy) as Y1.
  pose proof (Z.mod_pos_bound (xorshift 33 x * 0xff51afd7ed558ccd) (2 ^ 64) ltac:(lia)) as X2.
  pose proof (Z.mod_pos_bound (xorshift 33 y * 0xff51afd7ed558ccd) (2 ^ 64) ltac:(lia)) as Y2.
  pose proof (xorshift_range 64 33 _ ltac:(lia) ltac:(lia) X2) as X3.
  pose proof (xorshift_range 64 33 _ ltac:(lia) ltac:(lia) Y2) as Y3.
  apply (xorshift_inj 64 33) in E; try lia;
    try (apply Z.mod_pos_bound; lia).
  apply (mul_mod_inj _ 11291846944257947611) in E; try lia; try reflexivity.
  apply (xorshift_inj 64 33) in E; try lia.
  apply (mul_mod_inj _ 5725274745694666757) in E; try lia; try reflexivity.
  apply (xorshift_inj 64 33) in E; try lia.
Qed.

Lemma toUint32_multiply (a b : Z) :
  - 2 ^ 32 <= b <= 2 ^ 32 ->
  JS.toUint32 (Prim32.multiply a b) = (JS.toUint32 a * b) mod 2 ^ 32.
Proof.
  intros Hb. unfold JS.toUint32. rewrite multiply_mod by lia.
  now rewrite Z.mul_mod_idemp_l by lia.
Qed.

Lemma toUint32_xorshift (h k : Z) :
  0 <= k < 32 ->
  JS.toUint32 (JS.xor h (JS.shr h k)) = xorshift k (JS.toUint32 h).
Proof.
  intros Hk. rewrite toUint32_xor. unfold xorshift. f_equal.
  rewrite shr_const by lia. pose proof (toUint32_range h) as Hh.
  fold (JS.toUint32 h). rewrite Z.shiftr_div_pow2 by lia.
  apply toUint32_small.
  assert (0 < 2 ^ k) by (apply Z.pow_pos_nonneg; lia).
  split; [apply Z.div_pos; lia|].
  apply Z.le_lt_trans with (JS.toUint32 h); [|lia].
  apply Z.div_le_upper_bound; [lia|].
  replace (JS.toUint32 h) with (1 * JS.toUint32 h) at 1 by lia.
  apply Z.mul_le_mono_nonneg_r; lia.
Qed.

(** [fmix] is the xor-shift and multiply chain on the unsigned 32-bit
    value of its operand. *)
Lemma fmix_value (h : Z) :
  JS.toUint32 (Prim32.fmix h) = fmix32_words (JS.toUint32 h).
Proof.
  unfold Prim32.fmix, fmix32_words. cbv zeta.
  rewrite toUint32_xorshift by lia.
  rewrite toUint32_multiply by lia.
  rewrite toUint32_xorshift by lia.
  rewrite toUint32_multiply by lia.
  now rewrite toUint32_xorshift by lia.
Qed.

(** [fmix] is the xor-shift and multiply chain on the unsigned 32-bit
    value of its operand; it sees its operand modulo [2^32] only and
    returns a signed 32-bit number. *)
Theorem fmix_words (h : Z) :
  JS.toUint32 (Prim32.fmix h) = fmix32_words (JS.toUint32 h) /\
  Prim32.fmix h = Prim32.fmix (JS.toUint32 h) /\
  - 2 ^ 31 <= Prim32.fmix h < 2 ^ 31.
Proof.
  split; [apply fmix_value|]. split.
  - unfold Prim32.fmix. cbv zeta.
    pose proof (same32_toUint32 h) as E. unfold same32 in E.
    now rewrite (xor_congr_l _ _ _ E), (shr_congr_l _ _ _ E).
  - unfold Prim32.fmix. cbv zeta. apply xor_range.
Qed.

(** [fmix] loses nothing: two operands with the same mixed value are the
    same 32-bit word. *)
Theorem fmix_injective (a b : Z) :
  JS.toUint32 (Prim32.fmix a) = JS.toUint32 (Prim32.fmix b) ->
  JS.toUint32 a = JS.toUint32 b.
Proof.
  rewrite !fmix_value. apply fmix32_words_inj; apply toUint32_range.
Qed.

Lemma value64_range (p : Hash128x64.U64) : 0 <= value64 p < 2 ^ 64.
Proof.
  unfold value64. pose proof (toUint32_range (fst p)).
  pose proof (toUint32_range (snd p)). lia.
Qed.

Lemma xor64_xorshift (h : Hash128x64.U64) :
  value64 (Hash128x64.xor64 h (0, JS.shr (fst h) 1)) = xorshift 33 (value64 h).
Proof.
  rewrite xor64_lxor. unfold xorshift. f_equal.
  unfold value64 at 1. cbn [fst snd]. change (JS.toUint32 0) with 0.
  rewrite shr_const by lia. fold (JS.toUint32 (fst h)).
  pose proof (toUint32_range (fst h)) as H0.
  pose proof (toUint32_range (snd h)) as H1.
  rewrite toUint32_small
    by (split; [apply Z.div_pos; lia | apply Z.div_lt_upper_bound; lia]).
  unfold value64. rewrite Z.shiftr_div_pow2 by lia.
  change (2 ^ 33) with (2 ^ 32 * 2 ^ 1).
  rewrite <- Z.div_div by lia.
  rewrite Z.div_add_l, (Z.div_small (JS.toUint32 (snd h))) by lia.
  rewrite Z.add_0_r. lia.
Qed.

(** [fmix64] is the xor-shift by 33 and multiply chain on the 64-bit value:
    xor-ing [[0, hi >>> 1]] into a limb pair is [x ^ (x >> 33)]. *)
Lemma fmix64_value (h : Hash128x64.U64) :
  value64 (Hash128x64.fmix64 h) = fmix64_words (value64 h).
Proof.
  unfold Hash128x64.fmix64, fmix64_words. cbv zeta.
  rewrite xor64_xorshift, multiply64_value, xor64_xorshift, multiply64_value,
          xor64_xorshift.
  reflexivity.
Qed.

(** [fmix64] is the xor-shift by 33 and multiply chain on the 64-bit value
    of its operand, a value below [2^64]. *)
Theorem fmix64_is_fmix64_words (h : Hash128x64.U64) :
  value64 (Hash128x64.fmix64 h) = fmix64_words (value64 h) /\
  0 <= fmix64_words (value64 h) < 2 ^ 64.
Proof.
  split; [apply fmix64_value|].
  rewrite <- fmix64_value. apply value64_range.
Qed.

(** [fmix64] loses nothing either. *)
Theorem fmix64_injective (a b : Hash128x64.U64) :
  value64 (Hash128x64.fmix64 a) = value64 (Hash128x64.fmix64 b) ->
  value64 a = value64 b.
Proof.
  rewrite !fmix64_value. apply fmix64_words_inj; apply value64_range.
Qed.

(** ** Short inputs to the x86 128-bit engine *)

Lemma from_case_skip {A : Type} (r k : Z) (f : A -> A) (s : A) :
  r < k -> from_case r k f s = s.
Proof. intros H. unfold from_case. destruct (Z.leb_spec k r); [lia | reflexivity]. Qed.

Lemma from_case_inv {A : Type} (P : A -> Prop) (r k : Z) (f : A -> A) (s : A) :
  (forall s, P s -> P (f s)) -> P s -> P (from_case r k f s).
Proof. intros Hf H. unfold from_case. destruct (k <=? r); auto. Qed.

Lemma tail128_medium (bytes : Uint8Array) (off r : Z) (h : Hash128.Lanes) :
  r < 9 ->
  let '(a1, a2, a3, a4) := h in
  let '(x1, x2, x3, x4) := Hash128.tail bytes off r h in
  x3 = a3 /\ x4 = a4.
Proof.
  intros Hr. destruct h as [[[a1 a2] a3] a4].
  unfold Hash128.tail. cbv zeta.
  rewrite (from_case_skip r 15), (from_case_skip r 14), (from_case_skip r 13),
    (from_case_skip r 12), (from_case_skip r 11), (from_case_skip r 10),
    (from_case_skip r 9) by lia.
  match goal with
  | |- Hash128.h3 ?s = _ /\ _ =>
      enough (Hash128.h3 s = a3 /\ Hash128.h4 s = a4) as E by exact E;
      pattern s
  end.
  repeat (apply from_case_inv; [intros s [E3 E4]; split; assumption|]).
  split; reflexivity.
Qed.

Lemma tail128_small (bytes : Uint8Array) (off r : Z) (h : Hash128.Lanes) :
  r < 5 ->
  let '(a1, a2, a3, a4) := h in
  let '(x1, x2, x3, x4) := Hash128.tail bytes off r h in
  x2 = a2 /\ x3 = a3 /\ x4 = a4.
Proof.
  intros Hr. destruct h as [[[a1 a2] a3] a4].
  unfold Hash128.tail. cbv zeta.
  rewrite (from_case_skip r 15), (from_case_skip r 14), (from_case_skip r 13),
    (from_case_skip r 12), (from_case_skip r 11), (from_case_skip r 10),
    (from_case_skip r 9), (from_case_skip r 8), (from_case_skip r 7),
    (from_case_skip r 6), (from_case_skip r 5) by lia.
  match goal with
  | |- Hash128.h2 ?s = _ /\ _ =>
      enough (Hash128.h2 s = a2 /\ Hash128.h3 s = a3 /\ Hash128.h4 s = a4)
        as E by exact E;
      pattern s
  end.
  repeat (apply from_case_inv; [intros s (E2 & E3 & E4); repeat split; assumption|]).
  repeat split; reflexivity.
Qed.

Lemma and_15_small (n : nat) : (n < 16)%nat -> JS.and (Z.of_nat n) 15 = Z.of_nat n.
Proof.
  intros H. unfold JS.and. change (JS.toInt32 15) with (Z.ones 4).
  rewrite Z.land_ones, toInt32_small, Z.mod_small by lia. reflexivity.
Qed.

Lemma length_hex8 (h : Z) : String.length (hex8 h) = 8%nat.
Proof. rewrite hex8_fixed, length_hex_fixed. reflexivity. Qed.

(** On an input of at most 8 bytes the last two words of the [hash128]
    digest are equal, and on an input of at most 4 bytes the last three:
    the lanes that receive no byte stay equal through the finalization. *)
Theorem hash128_short_input_words (bytes : Uint8Array) (seed : Z) :
  ((List.length bytes <= 8)%nat ->
   exists w1 w2 w3 : string,
     String.length w1 = 8%nat /\ String.length w2 = 8%nat /\
     String.length w3 = 8%nat /\
     Hash128.compute bytes seed = (w1 ++ w2 ++ w3 ++ w3)%string) /\
  ((List.length bytes <= 4)%nat ->
   exists w1 w2 : string,
     String.length w1 = 8%nat /\ String.length w2 = 8%nat /\
     Hash128.compute bytes seed = (w1 ++ w2 ++ w2 ++ w2)%string).
Proof.
  split; intros Hlen.
  - unfold Hash128.compute, Hash128.lanes. cbv zeta.
    rewrite short_input_no_block by lia. cbn [fold_left].
    unfold length_of at 2. rewrite and_15_small by lia.
    pose proof (tail128_medium bytes (JS.shr (length_of bytes) 4 * 16)
                  (Z.of_nat (List.length bytes)) (seed, seed, seed, seed)
                  ltac:(lia)) as T.
    cbv beta iota in T.
    destruct (Hash128.tail bytes _ _ _) as [[[x1 x2] x3] x4].
    destruct T as [-> ->].
    unfold Hash128.combine. cbv beta iota zeta.
    match goal with
    | |- exists _ _ _, _ /\ _ /\ _ /\
           (hex8 ?a ++ hex8 ?b ++ hex8 ?c ++ hex8 _)%string = _ =>
        exists (hex8 a), (hex8 b), (hex8 c)
    end.
    rewrite !length_hex8. auto.
  - unfold Hash128.compute, Hash128.lanes. cbv zeta.
    rewrite short_input_no_block by lia. cbn [fold_left].
    unfold length_of at 2. rewrite and_15_small by lia.
    pose proof (tail128_small bytes (JS.shr (length_of bytes) 4 * 16)
                  (Z.of_nat (List.length bytes)) (seed, seed, seed, seed)
                  ltac:(lia)) as T.
    cbv beta iota in T.
    destruct (Hash128.tail bytes _ _ _) as [[[x1 x2] x3] x4].
    destruct T as (-> & -> & ->).
    unfold Hash128.combine. cbv beta iota zeta.
    match goal with
    | |- exists _ _, _ /\ _ /\
           (hex8 ?a ++ hex8 ?b ++ hex8 _ ++ hex8 _)%string = _ =>
        exists (hex8 a), (hex8 b)
    end.
    rewrite !length_hex8. auto.
Qed.

Lemma hash128_short_input_words_witness :
  (List.length (list_byte_of_string "01234") <= 8)%nat /\
  (exists w1 w2 w3 : string,
      String.length w1 = 8%nat /\ String.length w2 = 8%nat /\
      String.length w3 = 8%nat /\
      Hash128.compute (list_byte_of_string "01234") 0
      = (w1 ++ w2 ++ w3 ++ w3)%string) /\
  (List.length (list_byte_of_string "0") <= 4)%nat /\
  (exists w1 w2 : string,
      String.length w1 = 8%nat /\ String.length w2 = 8%nat /\
      Hash128.compute (list_byte_of_string "0") 0
      = (w1 ++ w2 ++ w2 ++ w2)%string).
Proof.
  split; [simpl; lia|]. split.
  - apply (proj1 (hash128_short_input_words (list_byte_of_string "01234") 0)).
    simpl. lia.
  - split; [simpl; lia|].
    apply (proj2 (hash128_short_input_words (list_byte_of_string "0") 0)).
    simpl. lia.
Defined.

(** ** The blocks on words *)

Lemma get_range (bytes : Uint8Array) (i : Z) : 0 <= get bytes i < 2 ^ 8.
Proof.
  unfold get. destruct (i <? 0); [lia|].
  destruct (nth_error bytes (Z.to_nat i)) as [x|]; [|lia].
  unfold byteZ. pose proof (Byte.to_N_bounded x). lia.
Qed.

Lemma toUint32_or (a b : Z) :
  JS.toUint32 (JS.or a b) = Z.lor (JS.toUint32 a) (JS.toUint32 b).
Proof.
  apply Z.bits_inj'. intros i Hi. unfold JS.or.
  rewrite Z.lor_spec, !testbit_toUint32, Z.lor_spec by lia.
  destruct (Z.ltb_spec i 32); cbn [andb]; [|reflexivity].
  now rewrite !testbit_toInt32 by lia.
Qed.

Lemma lor_low_high (lo hi n : Z) :
  0 <= n -> 0 <= lo < 2 ^ n -> Z.lor lo (hi * 2 ^ n) = lo + hi * 2 ^ n.
Proof.
  intros Hn Hlo.
  assert (L : Z.land lo (hi * 2 ^ n) = 0).
  { apply Z.bits_inj'. intros i Hi. rewrite Z.land_spec, Z.bits_0.
    destruct (Z_lt_ge_dec i n).
    - rewrite Z.mul_pow2_bits_low by lia. apply andb_false_r.
    - destruct (Z.eq_dec lo 0) as [->|Hne]; [now rewrite Z.bits_0|].
      assert (Hlog : Z.log2 lo < i).
      { apply Z.lt_le_trans with n; [|lia]. apply Z.log2_lt_pow2; lia. }
      rewrite (Z.bits_above_log2 lo i) by lia. reflexivity. }
  now rewrite <- Z.lxor_lor, <- Z.add_nocarry_lxor by assumption.
Qed.

Lemma toUint32_shl_byte (x n : Z) :
  0 <= x < 2 ^ 8 -> 0 <= n <= 24 -> JS.toUint32 (JS.shl x n) = x * 2 ^ n.
Proof.
  intros Hx Hn. rewrite toUint32_shl by lia.
  rewrite (toUint32_small x) by lia.
  apply Z.mod_small.
  assert (0 < 2 ^ n) by (apply Z.pow_pos_nonneg; lia).
  assert (2 ^ n <= 2 ^ 24) by (apply Z.pow_le_mono_r; lia).
  split; [nia|]. nia.
Qed.

Lemma word_le32 (b0 b1 b2 b3 : Z) :
  0 <= b0 < 2 ^ 8 -> 0 <= b1 < 2 ^ 8 -> 0 <= b2 < 2 ^ 8 -> 0 <= b3 < 2 ^ 8 ->
  JS.toUint32 (JS.or (JS.or (JS.or b0 (JS.shl b1 8)) (JS.shl b2 16)) (JS.shl b3 24))
  = b0 + b1 * 2 ^ 8 + b2 * 2 ^ 16 + b3 * 2 ^ 24.
Proof.
  intros H0 H1 H2 H3.
  rewrite !toUint32_or, !toUint32_shl_byte, (toUint32_small b0) by lia.
  rewrite (lor_low_high b0 b1 8) by lia.
  rewrite (lor_low_high (b0 + b1 * 2 ^ 8) b2 16) by lia.
  rewrite (lor_low_high (b0 + b1 * 2 ^ 8 + b2 * 2 ^ 16) b3 24) by lia.
  reflexivity.
Qed.

(** The words of a block are read little-endian: four bytes make a 32-bit
    word, and the two words of an 8-byte group make the 64-bit word of
    [hash128x64] with the first four bytes as its low half. *)
Theorem words_are_little_endian (bytes : Uint8Array) (o : Z) :
  JS.toUint32 (Hash128.word bytes o) = le32 bytes o /\
  JS.toUint32 (Hash128x64.word bytes o) = le32 bytes o /\
  value64 (Hash128x64.word bytes (o + 4), Hash128x64.word bytes o)
  = le32 bytes o + le32 bytes (o + 4) * 2 ^ 32.
Proof.
  assert (W : forall p, JS.toUint32 (Hash128.word bytes p) = le32 bytes p).
  { intros p. unfold Hash128.word, le32. apply word_le32; apply get_range. }
  assert (V : forall p, JS.toUint32 (Hash128x64.word bytes p) = le32 bytes p).
  { intros p. unfold Hash128x64.word, le32. apply word_le32; apply get_range. }
  split; [apply W|]. split; [apply V|].
  unfold value64. cbn [fst snd]. rewrite !V. lia.
Qed.

Lemma toUint32_add_const (x c : Z) :
  - 2 ^ 31 <= x < 2 ^ 31 -> 0 <= c < 2 ^ 32 ->
  JS.toUint32 (JS.add x c) = (JS.toUint32 x + c) mod 2 ^ 32.
Proof.
  intros Hx Hc. rewrite add_exact by lia. unfold JS.toUint32.
  now rewrite Z.add_mod_idemp_l by lia.
Qed.

Lemma mul5_add (u A : Z) :
  ((u * 5) mod 2 ^ 32 + A) mod 2 ^ 32 = (u * 5 + A) mod 2 ^ 32.
Proof. now rewrite Z.add_mod_idemp_l by lia. Qed.

(** One iteration of the block loop of [hash32], on unsigned words. *)
Theorem block32_on_words (bytes : Uint8Array) (h : Z) (i : nat) :
  JS.toUint32 (Hash32.block bytes h i)
  = block32_words (JS.toUint32 h) (le32 bytes (Z.of_nat i * 4)).
Proof.
  unfold Hash32.block, block32_words. cbv zeta.
  rewrite toUint32_add_const by (try apply multiply_range; lia).
  rewrite toUint32_multiply by lia.
  rewrite rotl_value by lia.
  rewrite toUint32_xor.
  rewrite toUint32_multiply by (unfold Hash32.C2; lia).
  rewrite rotl_value by lia.
  rewrite toUint32_multiply by (unfold Hash32.C1; lia).
  rewrite word_le32 by apply get_range.
  rewrite mul5_add. reflexivity.
Qed.

Lemma lane_on_words (Ci r Cn s A h k hn : Z) :
  - 2 ^ 32 <= Ci <= 2 ^ 32 -> - 2 ^ 32 <= Cn <= 2 ^ 32 ->
  0 <= r < 32 -> 0 <= s < 32 -> 0 <= A < 2 ^ 32 -> small hn ->
  JS.toUint32 (lane_update Ci r Cn s A h k hn)
  = lane_words Ci r Cn s A (JS.toUint32 h) (JS.toUint32 k) (JS.toUint32 hn) /\
  small (lane_update Ci r Cn s A h k hn).
Proof.
  intros HCi HCn Hr Hs HA Hhn. unfold lane_update, lane_words. cbv zeta.
  split.
  - rewrite toUint32_add_const by (try apply multiply_range; lia).
    rewrite toUint32_multiply by lia. rewrite mul5_add.
    set (X := Prim32.rotl
                (JS.xor h (Prim32.multiply
                             (Prim32.rotl (Prim32.multiply k Ci) r) Cn)) s).
    assert (E : JS.toUint32 (JS.add X hn)
                = (JS.toUint32 X + JS.toUint32 hn) mod 2 ^ 32).
    { pose proof (rotl_range
                    (JS.xor h (Prim32.multiply
                                 (Prim32.rotl (Prim32.multiply k Ci) r) Cn)) s)
        as Hx.
      fold X in Hx. unfold small in Hhn. rewrite add_exact by lia.
      unfold JS.toUint32. now rewrite <- Zplus_mod. }
    rewrite E. subst X.
    rewrite rotl_value by lia. rewrite toUint32_xor.
    rewrite toUint32_multiply by lia. rewrite rotl_value by lia.
    rewrite toUint32_multiply by lia. reflexivity.
  - match goal with
    | |- small (JS.add (Prim32.multiply ?x 5) A) =>
        pose proof (multiply_range x 5)
    end.
    unfold small. rewrite add_exact by lia. lia.
Qed.

(** The block mixing of [hash128] is the mixing on unsigned 32-bit words,
    as long as the lanes it adds are small enough for the addition to be
    exact; the lanes it leaves are small again. *)
Theorem mix128_on_words (h1 h2 h3 h4 k1 k2 k3 k4 : Z) :
  small h2 -> small h3 -> small h4 ->
  let '(x1, x2, x3, x4) := Hash128.mix (h1, h2, h3, h4) (k1, k2, k3, k4) in
  (JS.toUint32 x1, JS.toUint32 x2, JS.toUint32 x3, JS.toUint32 x4)
  = mix128_words
      (JS.toUint32 h1, JS.toUint32 h2, JS.toUint32 h3, JS.toUint32 h4)
      (JS.toUint32 k1, JS.toUint32 k2, JS.toUint32 k3, JS.toUint32 k4) /\
  small x1 /\ small x2 /\ small x3 /\ small x4.
Proof.
  intros S2 S3 S4.
  assert (E : Hash128.mix (h1, h2, h3, h4) (k1, k2, k3, k4)
              = (lane1 h1 k1 h2, lane2 h2 k2 h3, lane3 h3 k3 h4,
                 lane4 h4 k4 (lane1 h1 k1 h2))).
  { unfold Hash128.mix, lane1, lane2, lane3, lane4, lane_update.
    cbv zeta. reflexivity. }
  rewrite E. unfold mix128_words, lane1, lane2, lane3, lane4. cbv zeta.
  unfold Hash128.C1, Hash128.C2, Hash128.C3, Hash128.C4.
  destruct (lane_on_words 0x239b961b 15 0xab0e9789 19 0x561ccd1b h1 k1 h2)
    as [-> L1]; try lia; auto.
  destruct (lane_on_words 0xab0e9789 16 0x38b34ae5 17 0x0bcaa747 h2 k2 h3)
    as [-> L2]; try lia; auto.
  destruct (lane_on_words 0x38b34ae5 17 0xa1e38b93 15 0x96cd1c35 h3 k3 h4)
    as [-> L3]; try lia; auto.
  destruct (lane_on_words 0xa1e38b93 18 0x239b961b 13 0x32ac3b17 h4 k4
              (lane_update 0x239b961b 15 0xab0e9789 19 0x561ccd1b h1 k1 h2))
    as [E4 L4]; try lia; auto.
  rewrite E4.
  destruct (lane_on_words 0x239b961b 15 0xab0e9789 19 0x561ccd1b h1 k1 h2)
    as [-> _]; try lia; auto.
Qed.

Lemma mix128_on_words_witness :
  (small 7 /\ small (2 ^ 40) /\ small (-1)) /\
  let '(x1, x2, x3, x4) := Hash128.mix (3, 7, 2 ^ 40, -1) (1, 2, 3, 4) in
  (JS.toUint32 x1, JS.toUint32 x2, JS.toUint32 x3, JS.toUint32 x4)
  = mix128_words
      (JS.toUint32 3, JS.toUint32 7, JS.toUint32 (2 ^ 40), JS.toUint32 (-1))
      (JS.toUint32 1, JS.toUint32 2, JS.toUint32 3, JS.toUint32 4) /\
  small x1 /\ small x2 /\ small x3 /\ small x4.
Proof.
  split; [unfold small; lia|].
  apply (mix128_on_words 3 7 (2 ^ 40) (-1) 1 2 3 4); unfold small; lia.
Defined.

(** The block mixing of [hash128x64] on limb pairs is the mixing on
    unsigned 64-bit words. *)
Theorem mix64_on_words (h1 h2 k1 k2 : Hash128x64.U64) :
  let '(x1, x2) := Hash128x64.mix (h1, h2) (k1, k2) in
  (value64 x1, value64 x2)
  = mix64_words (value64 h1, value64 h2) (value64 k1, value64 k2).
Proof.
  unfold Hash128x64.mix, mix64_words. cbv beta iota zeta.
  assert (A5 : forall x c, 0 <= c < 2 ^ 32 ->
             value64 (Hash128x64.add64 (Hash128x64.multiply64 x (0, 5)) (0, c))
             = (value64 x * 5 + c) mod 2 ^ 64).
  { intros x c Hc. rewrite add64_value, multiply64_value.
    replace (value64 (0, 5)) with 5 by reflexivity.
    replace (value64 (0, c)) with c.
    - now rewrite Z.add_mod_idemp_l by lia.
    - unfold value64. cbn [fst snd]. change (JS.toUint32 0) with 0.
      rewrite toUint32_small by lia. lia. }
  f_equal.
  - rewrite A5, add64_value, (rotl64_rotates _ 27), xor64_lxor,
      multiply64_value, (rotl64_rotates _ 31), multiply64_value by lia.
    reflexivity.
  - rewrite A5, add64_value, (rotl64_rotates _ 31), xor64_lxor,
      multiply64_value, (rotl64_rotates _ 33), multiply64_value by lia.
    rewrite A5, add64_value, (rotl64_rotates _ 27), xor64_lxor,
      multiply64_value, (rotl64_rotates _ 31), multiply64_value by lia.
    reflexivity.
Qed.

Lemma fold_left_cons_eq {A B : Type} (f : A -> B -> A) (x : B) (l : list B) (a : A) :
  fold_left f (x :: l) a = fold_left f l (f a x).
Proof. reflexivity. Qed.

Lemma fold32_on_words (bytes : Uint8Array) (l : list nat) :
  forall h,
    JS.toUint32 (fold_left (Hash32.block bytes) l h)
    = fold_left (fun h i => block32_words h (le32 bytes (Z.of_nat i * 4)))
        l (JS.toUint32 h).
Proof.
  induction l as [|i l IH]; intros h.
  - reflexivity.
  - rewrite !fold_left_cons_eq. rewrite IH. f_equal. apply block32_on_words.
Qed.

Lemma lxor_low_high (lo hi n : Z) :
  0 <= n -> 0 <= lo < 2 ^ n -> Z.lxor (hi * 2 ^ n) lo = lo + hi * 2 ^ n.
Proof.
  intros Hn Hlo. rewrite <- (lor_low_high lo hi n) by assumption.
  rewrite Z.lxor_comm. apply Z.lxor_lor.
  apply Z.bits_inj'. intros i Hi. rewrite Z.land_spec, Z.bits_0.
  destruct (Z_lt_ge_dec i n).
  - rewrite Z.mul_pow2_bits_low by lia. apply andb_false_r.
  - destruct (Z.eq_dec lo 0) as [->|Hne]; [now rewrite Z.bits_0|].
    assert (Hlog : Z.log2 lo < i).
    { apply Z.lt_le_trans with n; [|lia]. apply Z.log2_lt_pow2; lia. }
    rewrite (Z.bits_above_log2 lo i) by lia. reflexivity.
Qed.

Lemma mix_k32_on_words (k : Z) :
  JS.toUint32
    (Prim32.multiply (Prim32.rotl (Prim32.multiply k Hash32.C1) 15) Hash32.C2)
  = mix_k32 (JS.toUint32 k).
Proof.
  unfold mix_k32.
  rewrite toUint32_multiply by (unfold Hash32.C2; lia).
  rewrite rotl_value by lia.
  rewrite toUint32_multiply by (unfold Hash32.C1; lia). reflexivity.
Qed.

Lemma tail32_on_words (bytes : Uint8Array) (off r h : Z) :
  0 <= r <= 3 ->
  JS.toUint32 (Hash32.tail bytes off r h)
  = if 1 <=? r
    then Z.lxor (JS.toUint32 h) (mix_k32 (tail_word bytes off r))
    else JS.toUint32 h.
Proof.
  intros Hr.
  pose proof (get_range bytes off) as B0.
  pose proof (get_range bytes (off + 1)) as B1.
  pose proof (get_range bytes (off + 2)) as B2.
  assert (C : r = 0 \/ r = 1 \/ r = 2 \/ r = 3) by lia.
  unfold Hash32.tail, tail_word, from_case. cbv zeta.
  destruct C as [-> | [-> | [-> | ->]]];
    cbn [Z.leb Z.compare Pos.compare Pos.compare_cont snd fst];
    cbv beta iota.
  - reflexivity.
  - cbn [snd]. rewrite toUint32_xor, mix_k32_on_words, toUint32_xor.
    change (JS.toUint32 0) with 0.
    rewrite Z.lxor_0_l, (toUint32_small (get bytes off)) by lia.
    do 2 f_equal. lia.
  - cbn [snd]. rewrite toUint32_xor, mix_k32_on_words, !toUint32_xor.
    change (JS.toUint32 0) with 0.
    rewrite Z.lxor_0_l, toUint32_shl_byte, (toUint32_small (get bytes off)) by lia.
    rewrite (lxor_low_high (get bytes off) (get bytes (off + 1)) 8) by lia.
    do 2 f_equal. lia.
  - cbn [snd]. rewrite toUint32_xor, mix_k32_on_words, !toUint32_xor.
    change (JS.toUint32 0) with 0.
    rewrite Z.lxor_0_l, !toUint32_shl_byte, (toUint32_small (get bytes off)) by lia.
    rewrite (lxor_low_high (get bytes (off + 1) * 2 ^ 8) (get bytes (off + 2)) 16)
      by lia.
    replace (get bytes (off + 1) * 2 ^ 8 + get bytes (off + 2) * 2 ^ 16)
      with ((get bytes (off + 1) + get bytes (off + 2) * 2 ^ 8) * 2 ^ 8) by ring.
    rewrite (lxor_low_high (get bytes off)) by lia.
    do 2 f_equal. lia.
Qed.

(** On an input shorter than [2^32] bytes [hash32] computes MurmurHash3
    x86 32 as it reads on unsigned 32-bit words, for every integer seed. *)
Theorem hash32_on_words (bytes : Uint8Array) (seed : Z) :
  length_of bytes < 2 ^ 32 ->
  Hash32.compute bytes seed = hash32_words bytes seed.
Proof.
  intros Hlen. unfold Hash32.compute, hash32_words. cbv zeta.
  assert (H0 : 0 <= length_of bytes) by (unfold length_of; lia).
  assert (En : JS.shr (length_of bytes) 2 = length_of bytes / 4).
  { rewrite shr_const by lia. now rewrite Z.mod_small by lia. }
  assert (Er : JS.and (length_of bytes) 3 = length_of bytes mod 4).
  { unfold JS.and. change (JS.toInt32 3) with (Z.ones 2).
    rewrite Z.land_ones by lia.
    rewrite <- (Z.mod_mod_divide (JS.toInt32 (length_of bytes)) (2 ^ 32) (2 ^ 2)),
            toInt32_mod, Z.mod_mod_divide; try (exists (2 ^ 30); reflexivity).
    reflexivity. }
  rewrite En, Er.
  pose proof (Z.mod_pos_bound (length_of bytes) 4 ltac:(lia)) as Hr.
  assert (E0 : forall x, JS.shr x 0 = JS.toUint32 x).
  { intros x. rewrite shr_const by lia. change (2 ^ 0) with 1. apply Z.div_1_r. }
  rewrite E0, fmix_value, toUint32_xor. f_equal.
  change (JS.toUint32 (length_of bytes)) with (length_of bytes mod 2 ^ 32).
  f_equal.
  rewrite tail32_on_words by lia.
  rewrite fold32_on_words. reflexivity.
Qed.

Lemma hash32_on_words_witness :
  length_of (list_byte_of_string "0123456789abcde") < 2 ^ 32 /\
  Hash32.compute (list_byte_of_string "0123456789abcde") 7
  = hash32_words (list_byte_of_string "0123456789abcde") 7.
Proof.
  split; [vm_compute; reflexivity|].
  apply (hash32_on_words (list_byte_of_string "0123456789abcde") 7).
  vm_compute. reflexivity.
Defined.

(** ** Lengths beyond 32 bits *)





Section Wrap.
Variables (b e : Uint8Array).
Hypothesis Hb : length_of b < 2 ^ 32.
Hypothesis He : length_of e mod 2 ^ 32 = 0.









End Wrap.



(** ** More on the streaming hashers and the big integer output *)

(** Only the concatenation of the chunks counts: two sequences of updates
    with the same concatenation, empty chunks included, give the same
    digest. *)
Theorem chunking_is_irrelevant (l1 l2 : list HashInput) :
  List.concat (map toBytes l1) = List.concat (map toBytes l2) ->
  (forall seed,
      fst (Hash32.digest (updates Hash32.update l1 (Hash32.createHash32 seed)))
      = fst (Hash32.digest (updates Hash32.update l2 (Hash32.createHash32 seed)))) /\
  (forall options,
      fst (Hash128.digest
             (updates Hash128.update l1 (Hash128.createHash128 options)))
      = fst (Hash128.digest
               (updates Hash128.update l2 (Hash128.createHash128 options)))) /\
  (forall options,
      fst (Hash128x64.digest
             (updates Hash128x64.update l1 (Hash128x64.createHash128x64 options)))
      = fst (Hash128x64.digest
               (updates Hash128x64.update l2
                  (Hash128x64.createHash128x64 options)))).
Proof.
  intros E. split; [|split]; intros o.
  - now rewrite !digest32_updates, E.
  - now rewrite !digest128_updates, E.
  - now rewrite !digest64_updates, E.
Qed.

Lemma chunking_is_irrelevant_witness :
  List.concat (map toBytes [InString "hello world"])
  = List.concat (map toBytes [InString "hello"; InBytes []; InString " ";
                              InBytes (list_byte_of_string "world")]) /\
  (forall options,
      fst (Hash128.digest
             (updates Hash128.update [InString "hello world"]
                (Hash128.createHash128 options)))
      = fst (Hash128.digest
               (updates Hash128.update
                  [InString "hello"; InBytes []; InString " ";
                   InBytes (list_byte_of_string "world")]
                  (Hash128.createHash128 options)))).
Proof.
  split; [reflexivity|].
  apply (chunking_is_irrelevant [InString "hello world"]
           [InString "hello"; InBytes []; InString " ";
            InBytes (list_byte_of_string "world")]).
  reflexivity.
Defined.

(** A stream that was created and updated holds the chunks in the order
    they came, their total length, and the seed and output format it was
    created with. *)
Theorem stream_buffer_invariant (inputs : list HashInput) :
  (forall seed,
      let s := updates Hash32.update inputs (Hash32.createHash32 seed) in
      Hash32.chunks s = map toBytes inputs /\
      Hash32.totalLength s = total_length (Hash32.chunks s) /\
      Hash32.totalLength s = length_of (List.concat (Hash32.chunks s)) /\
      Hash32.seed s = Hash32.seed (Hash32.createHash32 seed)) /\
  (forall options,
      let s := updates Hash128.update inputs (Hash128.createHash128 options) in
      Hash128.chunks s = map toBytes inputs /\
      Hash128.totalLength s = total_length (Hash128.chunks s) /\
      Hash128.totalLength s = length_of (List.concat (Hash128.chunks s)) /\
      Hash128.seed s = seed_of options /\
      Hash128.outputFormat s
      = Hash128.outputFormat (Hash128.createHash128 options)) /\
  (forall options,
      let s := updates Hash128x64.update inputs
                 (Hash128x64.createHash128x64 options) in
      Hash128x64.chunks s = map toBytes inputs /\
      Hash128x64.totalLength s = total_length (Hash128x64.chunks s) /\
      Hash128x64.totalLength s = length_of (List.concat (Hash128x64.chunks s)) /\
      Hash128x64.seed s = seed_of options /\
      Hash128x64.outputFormat s
      = Hash128x64.outputFormat (Hash128x64.createHash128x64 options)).
Proof.
  split; [|split]; intros o s; subst s.
  - rewrite updates32_state. cbn. rewrite <- total_length_concat. auto.
  - rewrite updates128_state. cbn. rewrite <- total_length_concat. auto.
  - rewrite updates64_state. cbn. rewrite <- total_length_concat. auto.
Qed.

(** With output ['bigint'] the digest is the integer whose 32-bit (64-bit)
    digits, most significant first, are the final lanes; it is below
    [2^128]. *)
Theorem bigint_is_the_lanes (input : HashInput) (sd : option Z) :
  (let '(h1, h2, h3, h4) :=
     Hash128.lanes (toBytes input) (seed_of (options_of sd None)) in
   let v := JS.toUint32 h1 * 2 ^ 96 + JS.toUint32 h2 * 2 ^ 64
            + JS.toUint32 h3 * 2 ^ 32 + JS.toUint32 h4 in
   Hash128.hash128 input (options_of sd (Some bigint))
   = Normal (BigIntValue v) /\ 0 <= v < 2 ^ 128) /\
  (let '(h1, h2) :=
     Hash128x64.lanes (toBytes input) (seed_of (options_of sd None)) in
   let v := value64 h1 * 2 ^ 64 + value64 h2 in
   Hash128x64.hash128x64 input (options_of sd (Some bigint))
   = Normal (BigIntValue v) /\ 0 <= v < 2 ^ 128).
Proof.
  split.
  - unfold Hash128.hash128, options_of, output_of, output, seed_of, seed,
      Hash128.compute.
    destruct (Hash128.lanes _ _) as [[[h1 h2] h3] h4].
    destruct (hex32_shape h1 h2 h3 h4) as (_ & _ & _ & B). cbv zeta in B.
    cbv zeta. rewrite B. split; [reflexivity|].
    pose proof (toUint32_range h1). pose proof (toUint32_range h2).
    pose proof (toUint32_range h3). pose proof (toUint32_range h4). lia.
  - unfold Hash128x64.hash128x64, options_of, output_of, output, seed_of,
      seed, Hash128x64.compute.
    destruct (Hash128x64.lanes _ _) as [[a b] [c d]]. cbn [fst snd].
    destruct (hex32_shape a b c d) as (_ & _ & _ & B). cbv zeta in B.
    cbv zeta. rewrite B. unfold value64. cbn [fst snd]. split.
    + do 2 f_equal. ring.
    + pose proof (toUint32_range a). pose proof (toUint32_range b).
      pose proof (toUint32_range c). pose proof (toUint32_range d). lia.
Qed.

Lemma fmix_injective_witness :
  JS.toUint32 (Prim32.fmix 5) = JS.toUint32 (Prim32.fmix (5 - 2 ^ 32)) /\
  JS.toUint32 5 = JS.toUint32 (5 - 2 ^ 32).
Proof.
  split; [vm_compute; reflexivity|].
  apply (fmix_injective 5 (5 - 2 ^ 32)). vm_compute. reflexivity.
Defined.

Lemma fmix64_injective_witness :
  value64 (Hash128x64.fmix64 (1, 2))
  = value64 (Hash128x64.fmix64 (1 + 2 ^ 32, 2 - 2 ^ 32)) /\
  value64 (1, 2) = value64 (1 + 2 ^ 32, 2 - 2 ^ 32).
Proof.
  split; [vm_compute; reflexivity|].
  apply (fmix64_injective (1, 2) (1 + 2 ^ 32, 2 - 2 ^ 32)).
  vm_compute. reflexivity.
Defined.

(** A lane written by [hex8] and read back by [hexToBigInt] is the lane
    as an unsigned 32-bit integer. *)
Theorem hex8_round_trip (h : Z) :
  String.length (hex8 h) = 8%nat /\
  hexToBigInt (hex8 h) = Normal (JS.toUint32 h).
Proof.
  split; [apply length_hex8|].
  unfold hexToBigInt.
  assert (P : parse_hex (hex8 h) 0 = Some (JS.toUint32 h)).
  { rewrite hex8_fixed, parse_hex_fixed. cbn [parse_hex]. f_equal.
    pose proof (toUint32_range h).
    change (16 ^ Z.of_nat 8) with (2 ^ 32). rewrite Z.mod_small by lia. lia. }
  rewrite P. pose proof (length_hex8 h) as L.
  destruct (hex8 h); [discriminate L | reflexivity].
Qed.

(** ** The v1 compatibility layer *)

Lemma after_call_warn (w : V1Compat.World) (c : V3Call) :
  after_call w c = V1Compat.warnDeprecation w.
Proof. destruct c; reflexivity. Qed.

Lemma warnDeprecation_quiet (w : V1Compat.World) :
  V1Compat.warned w || V1Compat.production w = true ->
  V1Compat.warnDeprecation w = w.
Proof.
  unfold V1Compat.warnDeprecation.
  destruct (V1Compat.warned w), (V1Compat.production w); simpl; congruence.
Qed.

Lemma after_calls_quiet (calls : list V3Call) (w : V1Compat.World) :
  V1Compat.warned w || V1Compat.production w = true ->
  after_calls calls w = w.
Proof.
  intros H. unfold after_calls.
  induction calls as [|c calls IH]; [reflexivity|].
  cbn [fold_left]. rewrite after_call_warn, warnDeprecation_quiet by exact H.
  exact IH.
Qed.

(** Over any sequence of calls of the [v3] functions the deprecation
    warning is printed at most once: not at all when the flag is already
    set or the environment is production, and otherwise exactly once, by
    the first call, which sets the flag. *)
Theorem deprecation_warned_once (calls : list V3Call) (w : V1Compat.World) :
  let w' := after_calls calls w in
  V1Compat.production w' = V1Compat.production w /\
  (if V1Compat.warned w || V1Compat.production w
   then V1Compat.console w' = V1Compat.console w /\
        V1Compat.warned w' = V1Compat.warned w
   else match calls with
        | [] => V1Compat.console w' = V1Compat.console w /\
                V1Compat.warned w' = false
        | _ :: _ => V1Compat.console w'
                    = V1Compat.console w ++ [V1Compat.message] /\
                    V1Compat.warned w' = true
        end).
Proof.
  cbv zeta.
  destruct (V1Compat.warned w || V1Compat.production w) eqn:Q.
  - rewrite after_calls_quiet by exact Q. auto.
  - apply orb_false_elim in Q. destruct Q as [Qw Qp].
    destruct calls as [|c calls].
    + cbn. auto.
    + unfold after_calls. cbn [fold_left]. rewrite after_call_warn.
      unfold V1Compat.warnDeprecation. rewrite Qw, Qp.
      fold (after_calls calls
              (V1Compat.mkWorld true (V1Compat.production w)
                 (V1Compat.console w ++ [V1Compat.message]))).
      rewrite after_calls_quiet by reflexivity. cbn. auto.
Qed.

(** The [v3] functions return what the flat API returns for the same key
    and seed; the two 128-bit ones always return a hex string of 32
    characters, whatever the state of the warning. *)
Theorem v3_results (key : string) (seed : option Z) (w : V1Compat.World) :
  fst (V1Compat.x86_hash32 key seed w) = Hash32.hash32 (InString key) seed /\
  (exists s, fst (V1Compat.x86_hash128 key seed w) = Normal (HexString s) /\
             String.length s = 32%nat /\
             Hash128.hash128 (InString key) (options_of seed None)
             = Normal (HexString s)) /\
  (exists s, fst (V1Compat.x64_hash128 key seed w) = Normal (HexString s) /\
             String.length s = 32%nat /\
             Hash128x64.hash128x64 (InString key) (options_of seed None)
             = Normal (HexString s)).
Proof.
  split; [reflexivity|]. split.
  - unfold V1Compat.x86_hash128, Hash128.hash128, options_of, output_of, output,
      Hash128.compute. cbn [fst].
    destruct (Hash128.lanes _ _) as [[[h1 h2] h3] h4].
    destruct (hex32_shape h1 h2 h3 h4) as (L & _).
    eexists. repeat split. exact L.
  - unfold V1Compat.x64_hash128, Hash128x64.hash128x64, options_of, output_of,
      output, Hash128x64.compute. cbn [fst].
    destruct (Hash128x64.lanes _ _) as [[a b] [c d]]. cbn [fst snd].
    destruct (hex32_shape a b c d) as (L & _).
    eexists. repeat split. exact L.
Qed.
